(** * Tinnitus noise matching: a shallow embedding of
      [tinnitus_noise_matching.py]

    The development follows the script top-down: the white-noise source
    ([generate_white_noise]), the band-pass shaper
    ([generate_bandpass_noise]) and the interactive matching loop
    ([tinnitus_matching]).

    Numbers.  Python's [int] and binary64 [float] values are embedded as
    exact rationals ([Q]): [int(x)] is truncation toward zero, [/] is true
    division and raises [ZeroDivisionError] on a zero divisor.  Rounding,
    overflow to infinity and NaN are outside this model.

    Library calls.  The script validates nothing itself; every failure it
    can show is an exception raised by numpy or scipy.  Those calls are
    modelled by their documented contracts:
    - [np.random.uniform(-1, 1, n)] raises [ValueError] for a negative
      size and otherwise returns the next [n] draws of the generator;
    - [scipy.signal.butter(N, [low, high], btype='band')] raises
      [ValueError] unless [0 < low < high < 1]; the coefficient values
      themselves are a parameter of the development ([butter_design]);
    - [scipy.signal.lfilter(b, a, x)] is the transposed direct form II
      recurrence with zero initial state. *)

From Stdlib Require Import String Bool ZArith QArith Qround Qabs List Lia Lqa.
From Stdlib Require DecimalString.
Import ListNotations.
Local Open Scope Q_scope.

(** ** Exceptions and the error monad *)

Inductive exn : Type :=
| ValueError (msg : string)
| ZeroDivisionError (msg : string).

Inductive result (A : Type) : Type :=
| Ok (a : A)
| Raise (e : exn).
Arguments Ok {A} a.
Arguments Raise {A} e.

Definition bind {A B : Type} (r : result A) (k : A -> result B) : result B :=
  match r with
  | Ok a => k a
  | Raise e => Raise e
  end.

Notation "x <- r ;; k" := (bind r (fun x => k))
  (at level 61, r at next level, right associativity).
Notation "' p <- r ;; k" := (bind r (fun p => k))
  (at level 61, p pattern, r at next level, right associativity).

Definition is_ok {A : Type} (r : result A) : bool :=
  match r with Ok _ => true | Raise _ => false end.

(** ** Python arithmetic on exact rationals *)

Definition Qltb (x y : Q) : bool := negb (Qle_bool y x).

(** [int(x)]: truncation toward zero. *)
Definition py_int (x : Q) : Z := Z.quot (Qnum x) (Zpos (Qden x)).

(** [max(a, b)] keeps its first argument unless the second is larger. *)
Definition py_max (a b : Q) : Q := if Qltb a b then b else a.

(** [min(a, b)] keeps its first argument unless the second is smaller. *)
Definition py_min (a b : Q) : Q := if Qltb b a then b else a.

Definition msg_division_by_zero : string := "float division by zero".

(** [x / y] *)
Definition py_div (x y : Q) : result Q :=
  if Qeq_bool y 0 then Raise (ZeroDivisionError msg_division_by_zero)
  else Ok (x / y).

(** ** The random generator

    numpy's global generator is a piece of state: a stream of draws of
    which every call consumes a prefix. *)

Definition rng : Type := nat -> Q.

Definition msg_negative_dimensions : string :=
  "negative dimensions are not allowed".

(** [np.random.uniform(-1, 1, size)] *)
Definition random_uniform (size : Z) (g : rng) : result (list Q * rng) :=
  if (size <? 0)%Z then Raise (ValueError msg_negative_dimensions)
  else
    let n := Z.to_nat size in
    Ok (map g (seq 0 n), fun k => g (n + k)%nat).

(** ** Generate white noise *)

Definition generate_white_noise (duration_sec sample_rate : Q) (g : rng)
  : result (list Q * rng) :=
  random_uniform (py_int (duration_sec * sample_rate)) g.

(** ** scipy.signal.lfilter

    Transposed direct form II with zero initial state.  Both coefficient
    vectors are padded to a common length and normalised by [a[0]]; the
    delay line [zs] has one cell per coefficient after the first. *)

Definition msg_a0 : string := "filter coefficient a[0] == 0 not supported".

Definition pad (n : nat) (l : list Q) : list Q :=
  l ++ repeat 0 (n - length l).

Fixpoint df2t_update (bs as_ zs : list Q) (x y : Q) : list Q :=
  match bs, as_, zs with
  | b :: bs', a :: as', _ :: zs' =>
      (b * x + hd 0 zs' - a * y) :: df2t_update bs' as' zs' x y
  | _, _, _ => []
  end.

Fixpoint df2t_run (b0 : Q) (bs as_ zs : list Q) (xs : list Q) : list Q :=
  match xs with
  | [] => []
  | x :: xs' =>
      let y := b0 * x + hd 0 zs in
      y :: df2t_run b0 bs as_ (df2t_update bs as_ zs x y) xs'
  end.

Definition lfilter (b a : list Q) (x : list Q) : result (list Q) :=
  match a with
  | [] => Raise (ValueError msg_a0)
  | a0 :: _ =>
      if Qeq_bool a0 0 then Raise (ValueError msg_a0)
      else
        let n := Nat.max (length a) (length b) in
        let bn := map (fun c => c / a0) (pad n b) in
        let an := map (fun c => c / a0) (pad n a) in
        Ok (df2t_run (hd 0 bn) (tl bn) (tl an) (repeat 0 (n - 1)%nat) x)
  end.

(** ** scipy.signal.butter, band-pass

    The validation is scipy's; the pole placement and bilinear transform
    are the parameter [butter_design], which supplies the numerator and
    the denominator after its leading coefficient (scipy returns a
    transfer function normalised to [a[0] = 1]). *)

Definition msg_wn_positive : string :=
  "filter critical frequencies must be greater than 0".
Definition msg_wn_order : string := "Wn[0] must be less than Wn[1]".
Definition msg_wn_digital : string :=
  "Digital filter critical frequencies must be 0 < Wn < 1".

Definition design : Type := nat -> Q -> Q -> list Q * list Q.

(** The checks [butter] makes on the pair of critical frequencies, in
    scipy's order; [None] when the pair is accepted. *)
Definition check_wn (low high : Q) : option exn :=
  if Qle_bool low 0 || Qle_bool high 0 then
    Some (ValueError msg_wn_positive)
  else if negb (Qltb low high) then
    Some (ValueError msg_wn_order)
  else if Qle_bool 1 low || Qle_bool 1 high then
    Some (ValueError msg_wn_digital)
  else None.

Definition butter (butter_design : design) (N : nat) (low high : Q)
  : result (list Q * list Q) :=
  match check_wn low high with
  | Some e => Raise e
  | None =>
      let '(b, a_tail) := butter_design N low high in
      Ok (b, 1 :: a_tail)
  end.

(** The exceptions that stand for the two error kinds of the
    specification: [InvalidParameter] is the sampler's refusal of a
    negative size, [InvalidFilterRange] is any refusal of [butter]. *)
Definition invalid_parameter (e : exn) : Prop :=
  e = ValueError msg_negative_dimensions.

Definition invalid_filter_range (e : exn) : Prop :=
  e = ValueError msg_wn_positive \/
  e = ValueError msg_wn_order \/
  e = ValueError msg_wn_digital.

(** ** Generate band-pass noise *)

Definition lowcut_of (centre_freq bandwidth : Q) : Q :=
  py_max 0 (centre_freq - bandwidth / 2).

Definition highcut_of (centre_freq bandwidth sample_rate : Q) : Q :=
  py_min (sample_rate / 2) (centre_freq + bandwidth / 2).

Definition nyquist_of (sample_rate : Q) : Q := (1 # 2) * sample_rate.

(** Lines 44-52: cut-offs, normalisation and filter design. *)
Definition bandpass_coefficients (butter_design : design)
    (centre_freq bandwidth sample_rate : Q) : result (list Q * list Q) :=
  let lowcut := lowcut_of centre_freq bandwidth in
  let highcut := highcut_of centre_freq bandwidth sample_rate in
  let nyquist := nyquist_of sample_rate in
  low <- py_div lowcut nyquist ;;
  high <- py_div highcut nyquist ;;
  butter butter_design 4 low high.

Definition generate_bandpass_noise (butter_design : design)
    (centre_freq bandwidth duration_sec sample_rate : Q) (g : rng)
  : result (list Q * rng) :=
  '(white_noise, g') <- generate_white_noise duration_sec sample_rate g ;;
  '(b, a) <- bandpass_coefficients butter_design
               centre_freq bandwidth sample_rate ;;
  bandpass_noise <- lfilter b a white_noise ;;
  Ok (bandpass_noise, g').

(** ** Play audio

    The session is observed through its trace: every call of the shaper,
    every playback, every printed line and every line read from the
    console, in program order.  [play_sound] hands the buffer to the
    audio device and waits until playback has finished; its conversion
    of the samples to single precision changes neither their number nor,
    in this model, their values.  The device is an external collaborator:
    its own failures are not modelled. *)

Inductive event : Type :=
| EvSynth (centre_freq bandwidth duration_sec sample_rate : Q)
| EvPlay (signal : list Q) (sample_rate : Q)
| EvPrint (line : string)
| EvInput (prompt answer : string).

Definition play_sound (signal : list Q) (sample_rate : Q) : list event :=
  [EvPlay signal sample_rate].

(** ** Listener tinnitus matching *)

(** The local variables of [tinnitus_matching]. *)
Record MatchState : Type := mkState {
  centre_freq : Q;
  bandwidth : Q;
  duration_sec : Q;
  sample_rate : Q
}.

Definition initial_state : MatchState :=
  {| centre_freq := 2000; bandwidth := 320; duration_sec := 3;
     sample_rate := 44100 |}.

(** [2 ** (1/3)] as CPython evaluates it in binary64:
    0x1.428a2f98d728bp+0, printed 1.2599210498948732. *)
Definition octave_factor : Q := 5674179970822795 # 4503599627370496.

Definition msg_start : string := "Starting tinnitus matching.".
Definition msg_invalid : string := "Invalid input, please try again.".
Definition prompt : string := "Enter your choice: ".

Definition menu : list string :=
  [ "
Adjust the sound to match your tinnitus:";
    "[1] Increase centre frequency";
    "[2] Decrease centre frequency";
    "[3] Increase bandwidth";
    "[4] Decrease bandwidth";
    "[5] Increase duration";
    "[6] Decrease duration";
    "[7] Play sound again";
    "[0] Exit and save matched parameters" ]%string.

(** What the [if]/[elif] chain does with one line of input: either the
    loop goes round again with the updated variables (and what the branch
    printed), or it is left through [break]. *)
Inductive control : Type :=
| Next (st : MatchState) (printed : list event)
| Break.

Definition dispatch (user_input : string) (st : MatchState) : control :=
  if (user_input =? "1")%string then
    Next {| centre_freq := centre_freq st * octave_factor;
            bandwidth := bandwidth st;
            duration_sec := duration_sec st;
            sample_rate := sample_rate st |} []
  else if (user_input =? "2")%string then
    Next {| centre_freq := centre_freq st / octave_factor;
            bandwidth := bandwidth st;
            duration_sec := duration_sec st;
            sample_rate := sample_rate st |} []
  else if (user_input =? "3")%string then
    Next {| centre_freq := centre_freq st;
            bandwidth := bandwidth st + 50;
            duration_sec := duration_sec st;
            sample_rate := sample_rate st |} []
  else if (user_input =? "4")%string then
    Next {| centre_freq := centre_freq st;
            bandwidth := bandwidth st - 50;
            duration_sec := duration_sec st;
            sample_rate := sample_rate st |} []
  else if (user_input =? "5")%string then
    Next {| centre_freq := centre_freq st;
            bandwidth := bandwidth st;
            duration_sec := duration_sec st + 1;
            sample_rate := sample_rate st |} []
  else if (user_input =? "6")%string then
    Next {| centre_freq := centre_freq st;
            bandwidth := bandwidth st;
            duration_sec := duration_sec st - 1;
            sample_rate := sample_rate st |} []
  else if (user_input =? "7")%string then
    Next st []
  else if (user_input =? "0")%string then
    Break
  else
    Next st [EvPrint msg_invalid].

(** How a run over a finite script of console lines ends: the function
    returned its tuple, an exception left it (no handler exists anywhere
    in the script), or the script is used up and the loop is blocked in
    [input] with the session still active. *)
Inductive outcome : Type :=
| Returned (centre_freq bandwidth sample_rate duration_sec : Q)
| Raised (e : exn) (st : MatchState)
| AwaitingInput (st : MatchState).

Definition synth (butter_design : design) (st : MatchState) (g : rng)
  : result (list Q * rng) :=
  generate_bandpass_noise butter_design (centre_freq st) (bandwidth st)
    (duration_sec st) (sample_rate st) g.

Definition ev_synth (st : MatchState) : event :=
  EvSynth (centre_freq st) (bandwidth st) (duration_sec st) (sample_rate st).

(** The [while True] loop, by recursion on the lines still to be read. *)
Fixpoint loop (butter_design : design) (inputs : list string)
    (st : MatchState) (g : rng) : list event * outcome :=
  match synth butter_design st g with
  | Raise e => ([ev_synth st], Raised e st)
  | Ok (noise_signal, g') =>
      let played :=
        ev_synth st :: play_sound noise_signal (sample_rate st)
          ++ map EvPrint menu in
      match inputs with
      | [] => (played, AwaitingInput st)
      | user_input :: rest =>
          match dispatch user_input st with
          | Break =>
              (played ++ [EvInput prompt user_input],
               Returned (centre_freq st) (bandwidth st) (sample_rate st)
                        (duration_sec st))
          | Next st' printed =>
              let '(tr, o) := loop butter_design rest st' g' in
              (played ++ EvInput prompt user_input :: printed ++ tr, o)
          end
      end
  end.

Definition tinnitus_matching (butter_design : design) (g : rng)
    (inputs : list string) : list event * outcome :=
  let '(tr, o) := loop butter_design inputs initial_state g in
  (EvPrint msg_start :: tr, o).

(** ** The commands of the menu

    The console lines the menu offers, under the names the specification
    gives them, and the effect its transition table gives each of them. *)

Inductive Command : Type :=
| IncreaseCentre | DecreaseCentre
| IncreaseBandwidth | DecreaseBandwidth
| IncreaseDuration | DecreaseDuration
| Replay | Finish.

Definition key (c : Command) : string :=
  match c with
  | IncreaseCentre => "1"
  | DecreaseCentre => "2"
  | IncreaseBandwidth => "3"
  | DecreaseBandwidth => "4"
  | IncreaseDuration => "5"
  | DecreaseDuration => "6"
  | Replay => "7"
  | Finish => "0"
  end.

(** A line that is none of the menu's keys. *)
Definition unrecognized (user_input : string) : Prop :=
  forall c, user_input <> key c.

(** The "Effect on MatchState" column of the transition table. *)
Definition table_effect (c : Command) (st : MatchState) : MatchState :=
  match c with
  | IncreaseCentre =>
      mkState (centre_freq st * octave_factor) (bandwidth st)
              (duration_sec st) (sample_rate st)
  | DecreaseCentre =>
      mkState (centre_freq st / octave_factor) (bandwidth st)
              (duration_sec st) (sample_rate st)
  | IncreaseBandwidth =>
      mkState (centre_freq st) (bandwidth st + 50)
              (duration_sec st) (sample_rate st)
  | DecreaseBandwidth =>
      mkState (centre_freq st) (bandwidth st - 50)
              (duration_sec st) (sample_rate st)
  | IncreaseDuration =>
      mkState (centre_freq st) (bandwidth st)
              (duration_sec st + 1) (sample_rate st)
  | DecreaseDuration =>
      mkState (centre_freq st) (bandwidth st)
              (duration_sec st - 1) (sample_rate st)
  | Replay => st
  | Finish => st
  end.

(** The variables of the loop, and the one each adjustment is for. *)
Inductive field : Type := FCentre | FBandwidth | FDuration | FSampleRate.

Definition get (f : field) (st : MatchState) : Q :=
  match f with
  | FCentre => centre_freq st
  | FBandwidth => bandwidth st
  | FDuration => duration_sec st
  | FSampleRate => sample_rate st
  end.

Definition adjusted (c : Command) : option field :=
  match c with
  | IncreaseCentre | DecreaseCentre => Some FCentre
  | IncreaseBandwidth | DecreaseBandwidth => Some FBandwidth
  | IncreaseDuration | DecreaseDuration => Some FDuration
  | Replay | Finish => None
  end.

(** The sample rate an event carries, if it carries one. *)
Definition rate_of (e : event) : option Q :=
  match e with
  | EvSynth _ _ _ s => Some s
  | EvPlay _ s => Some s
  | _ => None
  end.

(** The state the loop is in after reading the given lines, as long as
    none of them was the exit key. *)
Fixpoint state_after (st : MatchState) (answers : list string) : MatchState :=
  match answers with
  | [] => st
  | a :: rest =>
      match dispatch a st with
      | Next st' _ => state_after st' rest
      | Break => st
      end
  end.

Definition is_input (e : event) : bool :=
  match e with
  | EvInput _ _ => true
  | _ => false
  end.

(** What one turn of the loop shows before it reads: the call of the
    shaper, the playback of its buffer, and the menu. *)
Definition played (st : MatchState) (noise_signal : list Q) : list event :=
  ev_synth st :: play_sound noise_signal (sample_rate st)
    ++ map EvPrint menu.

(** The lines read from the console in a trace, in order. *)
Fixpoint answers_of (tr : list event) : list string :=
  match tr with
  | [] => []
  | EvInput _ a :: tr' => a :: answers_of tr'
  | _ :: tr' => answers_of tr'
  end.

(** ** The run without its samples

    Whether a synthesis raises, and what, depends neither on the draws
    of the generator nor on the coefficient values. *)

Definition filter_check (centre_freq bandwidth sample_rate : Q)
  : option exn :=
  let lowcut := lowcut_of centre_freq bandwidth in
  let highcut := highcut_of centre_freq bandwidth sample_rate in
  let nyquist := nyquist_of sample_rate in
  if Qeq_bool nyquist 0 then Some (ZeroDivisionError msg_division_by_zero)
  else check_wn (lowcut / nyquist) (highcut / nyquist).

Definition synth_check (st : MatchState) : option exn :=
  if (py_int (duration_sec st * sample_rate st) <? 0)%Z then
    Some (ValueError msg_negative_dimensions)
  else filter_check (centre_freq st) (bandwidth st) (sample_rate st).

Fixpoint outcome_of (inputs : list string) (st : MatchState) : outcome :=
  match synth_check st with
  | Some e => Raised e st
  | None =>
      match inputs with
      | [] => AwaitingInput st
      | user_input :: rest =>
          match dispatch user_input st with
          | Break =>
              Returned (centre_freq st) (bandwidth st) (sample_rate st)
                       (duration_sec st)
          | Next st' _ => outcome_of rest st'
          end
      end
  end.

(** An event without the samples it carries: a playback keeps the number
    of samples played. *)
Inductive shape : Type :=
| SSynth (centre_freq bandwidth duration_sec sample_rate : Q)
| SPlay (samples : Z) (sample_rate : Q)
| SPrint (line : string)
| SInput (answer : string).

Definition shape_of (e : event) : shape :=
  match e with
  | EvSynth c b d s => SSynth c b d s
  | EvPlay signal s => SPlay (Z.of_nat (length signal)) s
  | EvPrint line => SPrint line
  | EvInput _ a => SInput a
  end.

Definition sh_synth (st : MatchState) : shape :=
  SSynth (centre_freq st) (bandwidth st) (duration_sec st) (sample_rate st).

Definition sh_played (st : MatchState) : list shape :=
  sh_synth st
    :: SPlay (py_int (duration_sec st * sample_rate st)) (sample_rate st)
    :: map SPrint menu.

Fixpoint shapes_of (inputs : list string) (st : MatchState) : list shape :=
  match synth_check st with
  | Some _ => [sh_synth st]
  | None =>
      match inputs with
      | [] => sh_played st
      | user_input :: rest =>
          match dispatch user_input st with
          | Break => sh_played st ++ [SInput user_input]
          | Next st' printed =>
              sh_played st ++ SInput user_input
                :: map shape_of printed ++ shapes_of rest st'
          end
      end
  end.

(** The shapes that follow the last console read of a trace. *)
Fixpoint after_last_input (acc : list shape) (tr : list shape) : list shape :=
  match tr with
  | [] => acc
  | SInput _ :: tr' => after_last_input tr' tr'
  | _ :: tr' => after_last_input acc tr'
  end.

(** Concrete collaborators for closed examples: a generator whose draws
    alternate between 1/2 and -1/2, and a design that returns the
    identity filter. *)
Definition square_rng : rng :=
  fun k => if Nat.even k then 1 # 2 else - (1 # 2).

Definition identity_design : design := fun _ _ _ => ([1], []).


(** The invariant the specification puts on the clamped cut-offs, and
    the stricter one scipy enforces. *)
Definition cutoffs_in_range (centre_freq bandwidth sample_rate : Q) : Prop :=
  0 <= lowcut_of centre_freq bandwidth /\
  lowcut_of centre_freq bandwidth
    < highcut_of centre_freq bandwidth sample_rate /\
  highcut_of centre_freq bandwidth sample_rate <= sample_rate / 2.

Definition cutoffs_strictly_in_range
    (centre_freq bandwidth sample_rate : Q) : Prop :=
  0 < lowcut_of centre_freq bandwidth /\
  lowcut_of centre_freq bandwidth
    < highcut_of centre_freq bandwidth sample_rate /\
  highcut_of centre_freq bandwidth sample_rate < sample_rate / 2.

(** ** Scripts of console lines

    What a run does with a whole script: where it stops reading, which
    states it passes through, and how often each key was pressed. *)

(** The lines of a script before its first exit key. *)
Fixpoint before_exit (inputs : list string) : list string :=
  match inputs with
  | [] => []
  | i :: rest => if (i =? "0")%string then [] else i :: before_exit rest
  end.

(** How often the line [k] occurs among the answers. *)
Fixpoint presses (k : string) (answers : list string) : Z :=
  match answers with
  | [] => 0
  | a :: rest => ((if (a =? k)%string then 1 else 0) + presses k rest)%Z
  end.

(** Every state the loop passes through while it reads the answers, the
    first and the last included, gets through its synthesis. *)
Fixpoint synthesizable_along (st : MatchState) (answers : list string)
  : bool :=
  match synth_check st with
  | Some _ => false
  | None =>
      match answers with
      | [] => true
      | a :: rest =>
          match dispatch a st with
          | Next st' _ => synthesizable_along st' rest
          | Break => true
          end
      end
  end.

(** The tuple [tinnitus_matching] returns when it is left in [st]. *)
Definition snapshot (st : MatchState) : outcome :=
  Returned (centre_freq st) (bandwidth st) (sample_rate st)
           (duration_sec st).

Definition is_play (e : event) : bool :=
  match e with
  | EvPlay _ _ => true
  | _ => false
  end.

Definition is_synth (e : event) : bool :=
  match e with
  | EvSynth _ _ _ _ => true
  | _ => false
  end.

Definition count_events (p : event -> bool) (tr : list event) : nat :=
  length (filter p tr).

(** The default of the [sample_rate] parameters. *)
Definition default_sample_rate : Q := 44100.

(** ** Plot signals: the script after the session

    Once [tinnitus_matching] has returned, the script prints the matched
    parameters, shapes one more noise with them, and plots its spectrum
    and its waveform.  What numpy and Python compute here beyond the four
    operations (the bins of the discrete Fourier transform, the modulus
    of a complex number, the text of a number) is a parameter; the
    lengths, the slices and the checks are modelled.  Styling, saving
    and showing the figure belong to matplotlib and are left out. *)

Record numerics : Type := {
  bin : list Q -> nat -> Q * Q;
  modulus : Q * Q -> Q;
  text_of : Q -> string
}.

Definition decimal (n : Z) : string :=
  DecimalString.NilZero.string_of_int (Z.to_int n).

Definition msg_fft_points : string :=
  "Invalid number of FFT data points (0) specified.".

Definition msg_linspace (num : Z) : string :=
  ("Number of samples, " ++ decimal num ++ ", must be non-negative.")%string.

Definition msg_plot_shape (nx ny : nat) : string :=
  ("x and y must have same first dimension, but have shapes ("
     ++ decimal (Z.of_nat nx) ++ ",) and ("
     ++ decimal (Z.of_nat ny) ++ ",)")%string.

(** [np.fft.fft(a)]: as many bins as samples; no transform of nothing. *)
Definition np_fft (F : numerics) (a : list Q) : result (list (Q * Q)) :=
  match a with
  | [] => Raise (ValueError msg_fft_points)
  | _ => Ok (map (bin F a) (seq 0 (length a)))
  end.

(** [np.fft.fftfreq(n, d)]: the non-negative frequencies first, then the
    negative ones, in units of [1 / (n * d)]. *)
Definition fftfreq (n : Z) (d : Q) : result (list Q) :=
  val <- py_div 1 (inject_Z n * d) ;;
  let N := ((n - 1) / 2 + 1)%Z in
  let p1 := map Z.of_nat (seq 0 (Z.to_nat N)) in
  let p2 := map (fun i => (Z.of_nat i - n / 2)%Z) (seq 0 (Z.to_nat (n / 2))) in
  Ok (map (fun k => inject_Z k * val) (p1 ++ p2)).

(** [np.linspace(start, stop, num)], end point included. *)
Definition linspace (start stop : Q) (num : Z) : result (list Q) :=
  if (num <? 0)%Z then Raise (ValueError (msg_linspace num))
  else
    let delta := stop - start in
    let div := (num - 1)%Z in
    let point (k : nat) :=
      if (0 <? div)%Z then
        inject_Z (Z.of_nat k) * (delta / inject_Z div) + start
      else inject_Z (Z.of_nat k) * delta + start in
    let y := map point (seq 0 (Z.to_nat num)) in
    Ok (if (1 <? num)%Z then removelast y ++ [stop] else y).

(** [compute_fft]: the first half of the frequency axis and the moduli
    of the first half of the bins. *)
Definition compute_fft (F : numerics) (signal : list Q) (sample_rate : Q)
  : result (list Q * list Q) :=
  fft_result <- np_fft F signal ;;
  spacing <- py_div 1 sample_rate ;;
  fft_freq <- fftfreq (Z.of_nat (length signal)) spacing ;;
  let half := (length fft_result / 2)%nat in
  Ok (firstn half fft_freq, map (modulus F) (firstn half fft_result)).

(** [Axes.plot(x, y)] refuses two sequences of different lengths. *)
Definition plot (x y : list Q) : result (list Q * list Q) :=
  if (length x =? length y)%nat then Ok (x, y)
  else Raise (ValueError (msg_plot_shape (length x) (length y))).

(** The two curves of the figure, each as the pair handed to [plot]. *)
Record figure : Type := {
  spectrum : list Q * list Q;
  waveform : list Q * list Q
}.

(** Lines 146-177, from the tuple the session returned. *)
Definition plot_signals (butter_design : design) (F : numerics)
    (matched_freq matched_bandwidth sample_rate duration_sec : Q) (g : rng)
  : result figure :=
  '(matched_noise, _) <- generate_bandpass_noise butter_design
                           matched_freq matched_bandwidth duration_sec
                           default_sample_rate g ;;
  time <- linspace 0 duration_sec (py_int (sample_rate * duration_sec)) ;;
  '(fft_freq_bandpass, fft_bandpass) <-
     compute_fft F matched_noise sample_rate ;;
  top <- plot fft_freq_bandpass fft_bandpass ;;
  bottom <- plot time matched_noise ;;
  Ok {| spectrum := top; waveform := bottom |}.

(** The generator as the loop leaves it. *)
Fixpoint rng_after (butter_design : design) (inputs : list string)
    (st : MatchState) (g : rng) : rng :=
  match synth butter_design st g with
  | Raise _ => g
  | Ok (_, g') =>
      match inputs with
      | [] => g'
      | user_input :: rest =>
          match dispatch user_input st with
          | Break => g'
          | Next st' _ => rng_after butter_design rest st' g'
          end
      end
  end.

(** The generator as the turn that follows the given reads finds it. *)
Fixpoint rng_before (butter_design : design) (answers : list string)
    (st : MatchState) (g : rng) : rng :=
  match answers with
  | [] => g
  | a :: rest =>
      match synth butter_design st g, dispatch a st with
      | Ok (_, g'), Next st' _ => rng_before butter_design rest st' g'
      | _, _ => g
      end
  end.

Definition report (F : numerics) (matched_freq matched_bandwidth
                                  duration_sec : Q) : string :=
  ("Matched tinnitus parameters: Centre frequency = "
     ++ text_of F matched_freq ++ " Hz, Bandwidth = "
     ++ text_of F matched_bandwidth ++ " Hz, Duration: "
     ++ text_of F duration_sec ++ " s.")%string.

(** How the script as a whole ends. *)
Inductive script_outcome : Type :=
| Plotted (fig : figure)
| Uncaught (e : exn)
| Blocked.

(** The module-level code of [tinnitus_noise_matching.py]. *)
Definition script (butter_design : design) (F : numerics) (g : rng)
    (inputs : list string) : list event * script_outcome :=
  let '(tr, o) := tinnitus_matching butter_design g inputs in
  match o with
  | Returned matched_freq matched_bandwidth sample_rate duration_sec =>
      ((tr ++ [EvPrint (report F matched_freq matched_bandwidth
                          duration_sec)])%list,
       match plot_signals butter_design F matched_freq matched_bandwidth
               sample_rate duration_sec
               (rng_after butter_design inputs initial_state g) with
       | Ok fig => Plotted fig
       | Raise e => Uncaught e
       end)
  | Raised e _ => (tr, Uncaught e)
  | AwaitingInput _ => (tr, Blocked)
  end.

(** * Properties *)

(** ** Comparisons and truncation *)

Lemma Qltb_lt (x y : Q) : Qltb x y = true <-> x < y.
Proof.
  unfold Qltb. rewrite negb_true_iff.
  split; intro H.
  - apply Qnot_le_lt. intro Hle. apply Qle_bool_iff in Hle. congruence.
  - destruct (Qle_bool y x) eqn:E; [|reflexivity].
    apply Qle_bool_iff in E. exfalso. exact (Qlt_not_le _ _ H E).
Qed.

Lemma Qle_bool_false (x y : Q) : Qle_bool x y = false <-> y < x.
Proof.
  rewrite <- Qltb_lt. unfold Qltb.
  destruct (Qle_bool x y); simpl; intuition congruence.
Qed.

Lemma Qeq_bool_false (x y : Q) : Qeq_bool x y = false <-> ~ x == y.
Proof.
  split; intro H.
  - intro E. apply Qeq_bool_iff in E. congruence.
  - destruct (Qeq_bool x y) eqn:E; [|reflexivity].
    apply Qeq_bool_iff in E. contradiction.
Qed.

(** [int] of a non-negative number is its floor. *)
Lemma py_int_floor (x : Q) : 0 <= x -> py_int x = Qfloor x.
Proof.
  destruct x as [n d]. unfold Qle, py_int, Qfloor. simpl. intro H.
  apply Z.quot_div_nonneg; lia.
Qed.


Lemma py_int_zero (x : Q) : x == 0 -> py_int x = 0%Z.
Proof.
  destruct x as [n d]. unfold Qeq, py_int. simpl. intro H.
  assert (n = 0)%Z as -> by lia. reflexivity.
Qed.

(** [int(x)] is negative exactly when [x <= -1]. *)
Lemma py_int_negative (x : Q) : (py_int x < 0)%Z <-> x <= -1.
Proof.
  destruct x as [n d]. unfold Qle, py_int. simpl.
  split; intro H.
  - destruct (Z.lt_ge_cases n 0) as [Hn|Hn].
    + destruct (Z.lt_ge_cases (- n) (Z.pos d)) as [Hs|Hs]; [|lia].
      rewrite <- (Z.opp_involutive n), Z.quot_opp_l in H by lia.
      rewrite Z.quot_small in H by lia. lia.
    + pose proof (Z.quot_pos n (Z.pos d)). lia.
  - assert (Hn : (Z.pos d <= - n)%Z) by lia.
    rewrite <- (Z.opp_involutive n), Z.quot_opp_l by lia.
    assert (1 <= (- n) ÷ Z.pos d)%Z; [|lia].
    rewrite Z.quot_div_nonneg by lia.
    apply Z.div_le_lower_bound; lia.
Qed.

(** ** The noise source *)

Lemma random_uniform_ok (size : Z) (g : rng) :
  (0 <= size)%Z ->
  random_uniform size g
  = Ok (map g (seq 0 (Z.to_nat size)), fun k => g (Z.to_nat size + k)%nat).
Proof.
  intro H. unfold random_uniform.
  destruct (size <? 0)%Z eqn:E; [apply Z.ltb_lt in E; lia | reflexivity].
Qed.

Lemma white_noise_length (d sr : Q) (g g' : rng) (noise : list Q) :
  generate_white_noise d sr g = Ok (noise, g') ->
  Z.of_nat (length noise) = py_int (d * sr).
Proof.
  unfold generate_white_noise, random_uniform.
  destruct (py_int (d * sr) <? 0)%Z eqn:E; [discriminate|].
  intro H. injection H as <- _.
  rewrite length_map, length_seq.
  apply Z.ltb_ge in E. lia.
Qed.

(** ** The recursive filter keeps the length of its input *)

Lemma df2t_run_length (b0 : Q) (bs as_ : list Q) (xs zs : list Q) :
  length (df2t_run b0 bs as_ zs xs) = length xs.
Proof.
  revert zs. induction xs as [|x xs IH]; intro zs; simpl.
  - reflexivity.
  - now rewrite IH.
Qed.

Lemma lfilter_length (b a x y : list Q) :
  lfilter b a x = Ok y -> length y = length x.
Proof.
  unfold lfilter. destruct a as [|a0 a]; [discriminate|].
  destruct (Qeq_bool a0 0); [discriminate|].
  intro H. injection H as <-. apply df2t_run_length.
Qed.

Lemma lfilter_monic (b a_tail x : list Q) :
  exists y, lfilter b (1 :: a_tail) x = Ok y /\ length y = length x.
Proof.
  unfold lfilter. simpl Qeq_bool. cbv beta iota.
  eexists. split; [reflexivity|]. apply df2t_run_length.
Qed.

(** ** The shaper and its checks *)

Lemma bandpass_coefficients_raise (D : design) (c bw sr : Q) (e : exn) :
  filter_check c bw sr = Some e ->
  bandpass_coefficients D c bw sr = Raise e.
Proof.
  unfold filter_check, bandpass_coefficients, py_div, butter.
  destruct (Qeq_bool (nyquist_of sr) 0); simpl.
  - intro H. now injection H as <-.
  - intro H. now rewrite H.
Qed.

Lemma bandpass_coefficients_ok (D : design) (c bw sr : Q) :
  filter_check c bw sr = None ->
  exists b a_tail, bandpass_coefficients D c bw sr = Ok (b, 1 :: a_tail).
Proof.
  unfold filter_check, bandpass_coefficients, py_div, butter.
  destruct (Qeq_bool (nyquist_of sr) 0); simpl; [discriminate|].
  intro H. rewrite H.
  destruct (D 4%nat _ _) as [b a_tail]. now exists b, a_tail.
Qed.

Lemma synth_raise (D : design) (st : MatchState) (g : rng) (e : exn) :
  synth_check st = Some e -> synth D st g = Raise e.
Proof.
  unfold synth_check, synth, generate_bandpass_noise, generate_white_noise,
    random_uniform.
  destruct (py_int (duration_sec st * sample_rate st) <? 0)%Z; simpl.
  - intro H. now injection H as <-.
  - intro H. now rewrite (bandpass_coefficients_raise D _ _ _ e H).
Qed.

Lemma synth_ok (D : design) (st : MatchState) (g : rng) :
  synth_check st = None ->
  exists noise_signal g',
    synth D st g = Ok (noise_signal, g') /\
    Z.of_nat (length noise_signal)
    = py_int (duration_sec st * sample_rate st).
Proof.
  unfold synth_check, synth, generate_bandpass_noise.
  destruct (py_int (duration_sec st * sample_rate st) <? 0)%Z eqn:E;
    [discriminate|].
  intro H. apply Z.ltb_ge in E.
  unfold generate_white_noise. rewrite (random_uniform_ok _ g E).
  cbn [bind].
  destruct (bandpass_coefficients_ok D _ _ _ H) as (b & a_tail & ->).
  cbn [bind].
  destruct (lfilter_monic b a_tail
              (map g (seq 0 (Z.to_nat
                 (py_int (duration_sec st * sample_rate st))))))
    as (y & -> & Hy).
  cbn [bind]. eexists _, _. split; [reflexivity|].
  rewrite Hy, length_map, length_seq. lia.
Qed.

(** ** The loop and its sample-free run *)

Lemma loop_outcome (D : design) (inputs : list string) :
  forall st g, snd (loop D inputs st g) = outcome_of inputs st.
Proof.
  induction inputs as [|i rest IH]; intros st g; simpl;
    destruct (synth_check st) as [e|] eqn:E.
  - now rewrite (synth_raise D st g e E).
  - destruct (synth_ok D st g E) as (y & g' & -> & _). reflexivity.
  - now rewrite (synth_raise D st g e E).
  - destruct (synth_ok D st g E) as (y & g' & -> & _).
    destruct (dispatch i st) as [st' printed|]; [|reflexivity].
    specialize (IH st' g').
    destruct (loop D rest st' g') as [tr o]. exact IH.
Qed.

Lemma played_shapes (st : MatchState) (y : list Q) :
  Z.of_nat (length y) = py_int (duration_sec st * sample_rate st) ->
  map shape_of
    (ev_synth st :: play_sound y (sample_rate st) ++ map EvPrint menu)
  = sh_played st.
Proof.
  intro H. unfold sh_played, sh_synth, ev_synth, play_sound.
  simpl. now rewrite H.
Qed.

Lemma loop_shapes (D : design) (inputs : list string) :
  forall st g, map shape_of (fst (loop D inputs st g)) = shapes_of inputs st.
Proof.
  induction inputs as [|i rest IH]; intros st g;
    cbn [loop shapes_of];
    destruct (synth_check st) as [e|] eqn:E.
  - now rewrite (synth_raise D st g e E).
  - destruct (synth_ok D st g E) as (y & g' & -> & Hy).
    cbn [fst]. now apply played_shapes.
  - now rewrite (synth_raise D st g e E).
  - destruct (synth_ok D st g E) as (y & g' & -> & Hy).
    destruct (dispatch i st) as [st' printed|].
    + specialize (IH st' g').
      destruct (loop D rest st' g') as [tr o]. cbn [fst] in *.
      rewrite map_app, (played_shapes st y Hy). cbn [map shape_of].
      now rewrite map_app, IH.
    + cbn [fst]. rewrite map_app, (played_shapes st y Hy). reflexivity.
Qed.

Lemma tinnitus_matching_outcome (D : design) (g : rng) (inputs : list string) :
  snd (tinnitus_matching D g inputs) = outcome_of inputs initial_state.
Proof.
  unfold tinnitus_matching.
  rewrite <- (loop_outcome D inputs initial_state g).
  now destruct (loop D inputs initial_state g).
Qed.

Lemma tinnitus_matching_shapes (D : design) (g : rng) (inputs : list string) :
  map shape_of (fst (tinnitus_matching D g inputs))
  = SPrint msg_start :: shapes_of inputs initial_state.
Proof.
  unfold tinnitus_matching.
  rewrite <- (loop_shapes D inputs initial_state g).
  now destruct (loop D inputs initial_state g).
Qed.

(** ** What the filter design accepts *)

Lemma check_wn_none (low high : Q) :
  check_wn low high = None <-> 0 < low /\ low < high /\ high < 1.
Proof.
  unfold check_wn. split.
  - destruct (Qle_bool low 0) eqn:E1; [discriminate|].
    destruct (Qle_bool high 0) eqn:E2; [discriminate|].
    destruct (Qltb low high) eqn:E3; [|discriminate].
    destruct (Qle_bool 1 low) eqn:E4; [discriminate|].
    destruct (Qle_bool 1 high) eqn:E5; [discriminate|].
    intros _. apply Qle_bool_false in E1, E5. apply Qltb_lt in E3. tauto.
  - intros (H1 & H2 & H3).
    assert (E1 : Qle_bool low 0 = false) by (apply Qle_bool_false; lra).
    assert (E2 : Qle_bool high 0 = false) by (apply Qle_bool_false; lra).
    assert (E3 : Qltb low high = true) by (apply Qltb_lt; lra).
    assert (E4 : Qle_bool 1 low = false) by (apply Qle_bool_false; lra).
    assert (E5 : Qle_bool 1 high = false) by (apply Qle_bool_false; lra).
    now rewrite E1, E2, E3, E4, E5.
Qed.

Lemma check_wn_some (low high : Q) (e : exn) :
  check_wn low high = Some e -> invalid_filter_range e.
Proof.
  unfold check_wn, invalid_filter_range.
  destruct (Qle_bool low 0 || Qle_bool high 0);
    [intro H; injection H as <-; tauto|].
  destruct (negb (Qltb low high)); [intro H; injection H as <-; tauto|].
  destruct (Qle_bool 1 low || Qle_bool 1 high);
    [intro H; injection H as <-; tauto | discriminate].
Qed.

Lemma half_eq (x : Q) : x / 2 == x * (1 # 2).
Proof. reflexivity. Qed.

Lemma nyquist_nonzero (sr : Q) : 0 < sr -> Qeq_bool (nyquist_of sr) 0 = false.
Proof.
  intro H. apply Qeq_bool_false. unfold nyquist_of. lra.
Qed.


Lemma div_nyquist_le (x y sr : Q) :
  0 < sr -> x <= y -> x / nyquist_of sr <= y / nyquist_of sr.
Proof.
  intros Hsr Hxy. unfold Qdiv.
  apply Qmult_le_compat_r; [exact Hxy|].
  apply Qlt_le_weak, Qinv_lt_0_compat. unfold nyquist_of. lra.
Qed.

Lemma zero_div_nyquist (sr : Q) : 0 / nyquist_of sr == 0.
Proof. unfold Qdiv. apply Qmult_0_l. Qed.

Lemma half_div_nyquist (sr : Q) : 0 < sr -> (sr / 2) / nyquist_of sr == 1.
Proof.
  intro H. unfold nyquist_of. field. lra.
Qed.

(** The clamps do what they are there for: the lower cut-off is never
    negative and the upper one never exceeds half the sample rate. *)
Lemma lowcut_nonneg (c bw : Q) : 0 <= lowcut_of c bw.
Proof.
  unfold lowcut_of, py_max.
  destruct (Qltb 0 (c - bw / 2)) eqn:E.
  - apply Qltb_lt in E. lra.
  - lra.
Qed.

Lemma highcut_le_nyquist (c bw sr : Q) : highcut_of c bw sr <= sr / 2.
Proof.
  unfold highcut_of, py_min.
  destruct (Qltb (c + bw / 2) (sr / 2)) eqn:E.
  - apply Qltb_lt in E. lra.
  - lra.
Qed.


Lemma accepted_strict_range (c bw sr : Q) :
  0 < sr -> filter_check c bw sr = None -> cutoffs_strictly_in_range c bw sr.
Proof.
  intros Hsr. unfold filter_check.
  rewrite (nyquist_nonzero sr Hsr). intro H.
  apply check_wn_none in H. destruct H as (H1 & H2 & H3).
  unfold cutoffs_strictly_in_range.
  set (lo := lowcut_of c bw) in *. set (hi := highcut_of c bw sr) in *.
  repeat split.
  - destruct (Qlt_le_dec 0 lo) as [L|L]; [exact L|exfalso].
    pose proof (div_nyquist_le _ _ sr Hsr L) as L1.
    rewrite zero_div_nyquist in L1. lra.
  - destruct (Qlt_le_dec lo hi) as [L|L]; [exact L|exfalso].
    pose proof (div_nyquist_le _ _ sr Hsr L) as L1. lra.
  - destruct (Qlt_le_dec hi (sr / 2)) as [L|L]; [exact L|exfalso].
    pose proof (div_nyquist_le _ _ sr Hsr L) as L1.
    rewrite (half_div_nyquist sr Hsr) in L1. lra.
Qed.

Lemma filter_check_some (c bw sr : Q) (e : exn) :
  0 < sr -> filter_check c bw sr = Some e -> invalid_filter_range e.
Proof.
  intros Hsr. unfold filter_check.
  rewrite (nyquist_nonzero sr Hsr). apply check_wn_some.
Qed.



(** ** The claims about the noise source *)







(** ** The claims about the shaper *)




(** C4: for every spec with a positive sample rate whose clamped
    cut-offs violate 0 <= lowcut < highcut <= Nyquist, and for every spec
    whose centre frequency is the Nyquist frequency and whose bandwidth
    is positive, the filter design step raises one of [butter]'s range
    errors instead of returning coefficients, and so the shaper returns
    no buffer. *)
Theorem design_rejects_invalid_range
    (D : design) (c bw d sr : Q) (g : rng) :
  0 < sr ->
  ~ cutoffs_in_range c bw sr \/ (c == sr / 2 /\ 0 < bw) ->
  (exists e,
     bandpass_coefficients D c bw sr = Raise e /\ invalid_filter_range e) /\
  is_ok (generate_bandpass_noise D c bw d sr g) = false.
Proof.
  intros Hsr Hbad.
  assert (Hf : filter_check c bw sr <> None).
  { intro Hf. apply (accepted_strict_range _ _ _ Hsr) in Hf.
    destruct Hf as (H1 & H2 & H3).
    destruct Hbad as [Hbad | [Hc Hbw]].
    - apply Hbad. unfold cutoffs_in_range.
      repeat split; [apply lowcut_nonneg | exact H2 | apply Qlt_le_weak, H3].
    - revert H3. unfold highcut_of, py_min.
      destruct (Qltb (c + bw / 2) (sr / 2)) eqn:E.
      + apply Qltb_lt in E. intros _.
        pose proof (half_eq bw). pose proof (half_eq sr). lra.
      + intro H3. lra. }
  destruct (filter_check c bw sr) as [e|] eqn:E; [|congruence].
  split.
  - exists e. split.
    + now apply bandpass_coefficients_raise.
    + exact (filter_check_some _ _ _ _ Hsr E).
  - unfold generate_bandpass_noise.
    destruct (generate_white_noise d sr g) as [[noise g']|e']; [|reflexivity].
    cbn [bind]. now rewrite (bandpass_coefficients_raise D _ _ _ e E).
Qed.

Lemma design_rejects_invalid_range_witness :
  ((exists e,
      bandpass_coefficients identity_design 30000 320 44100 = Raise e /\
      invalid_filter_range e) /\
   is_ok (generate_bandpass_noise identity_design 30000 320 3 44100
            square_rng) = false) /\
  ((exists e,
      bandpass_coefficients identity_design 22050 100 44100 = Raise e /\
      invalid_filter_range e) /\
   is_ok (generate_bandpass_noise identity_design 22050 100 3 44100
            square_rng) = false).
Proof.
  split.
  - apply (design_rejects_invalid_range identity_design 30000 320 3 44100
             square_rng).
    + reflexivity.
    + left. unfold cutoffs_in_range. intros (_ & H & _).
      vm_compute in H. discriminate.
  - apply (design_rejects_invalid_range identity_design 22050 100 3 44100
             square_rng).
    + reflexivity.
    + right. split; reflexivity.
Defined.

(** ** The dispatch of one console line *)

Lemma dispatch_key (c : Command) (st : MatchState) :
  dispatch (key c) st
  = match c with
    | Finish => Break
    | _ => Next (table_effect c st) []
    end.
Proof. destruct c; reflexivity. Qed.

Lemma dispatch_unrecognized (u : string) (st : MatchState) :
  unrecognized u -> dispatch u st = Next st [EvPrint msg_invalid].
Proof.
  intro H. unfold dispatch.
  rewrite (proj2 (String.eqb_neq u "1") (H IncreaseCentre)).
  rewrite (proj2 (String.eqb_neq u "2") (H DecreaseCentre)).
  rewrite (proj2 (String.eqb_neq u "3") (H IncreaseBandwidth)).
  rewrite (proj2 (String.eqb_neq u "4") (H DecreaseBandwidth)).
  rewrite (proj2 (String.eqb_neq u "5") (H IncreaseDuration)).
  rewrite (proj2 (String.eqb_neq u "6") (H DecreaseDuration)).
  rewrite (proj2 (String.eqb_neq u "7") (H Replay)).
  rewrite (proj2 (String.eqb_neq u "0") (H Finish)).
  reflexivity.
Qed.

(** Every line is either one of the eight keys or unrecognized. *)
Lemma key_or_unrecognized (u : string) :
  (exists c, u = key c) \/ unrecognized u.
Proof.
  destruct (String.eqb_spec u "1"); [left; now exists IncreaseCentre|].
  destruct (String.eqb_spec u "2"); [left; now exists DecreaseCentre|].
  destruct (String.eqb_spec u "3"); [left; now exists IncreaseBandwidth|].
  destruct (String.eqb_spec u "4"); [left; now exists DecreaseBandwidth|].
  destruct (String.eqb_spec u "5"); [left; now exists IncreaseDuration|].
  destruct (String.eqb_spec u "6"); [left; now exists DecreaseDuration|].
  destruct (String.eqb_spec u "7"); [left; now exists Replay|].
  destruct (String.eqb_spec u "0"); [left; now exists Finish|].
  right. intros []; assumption.
Qed.

Lemma dispatch_sample_rate (u : string) (st st' : MatchState)
    (printed : list event) :
  dispatch u st = Next st' printed -> sample_rate st' = sample_rate st.
Proof.
  destruct (key_or_unrecognized u) as [[c ->]|Hu].
  - rewrite dispatch_key.
    destruct c; intro H; try discriminate; now injection H as <- _.
  - rewrite (dispatch_unrecognized u st Hu). intro H. now injection H as <- _.
Qed.

Lemma dispatch_printed (u : string) (st st' : MatchState)
    (printed : list event) :
  dispatch u st = Next st' printed ->
  printed = [] \/ printed = [EvPrint msg_invalid].
Proof.
  destruct (key_or_unrecognized u) as [[c ->]|Hu].
  - rewrite dispatch_key.
    destruct c; intro H; try discriminate; injection H as _ <-; now left.
  - rewrite (dispatch_unrecognized u st Hu). intro H.
    injection H as _ <-. now right.
Qed.

(** The multiplicative step is the cube root of two to the last bit of a
    binary64 number. *)
Lemma octave_factor_cubed :
  Qabs (octave_factor * octave_factor * octave_factor - 2)
  <= 1 # 1000000000000000.
Proof. vm_compute. discriminate. Qed.

Lemma octave_factor_positive : 0 < octave_factor.
Proof. reflexivity. Qed.

(** In exact arithmetic the multiplicative step and its inverse cancel;
    the rounding of the two binary64 operations is outside this model. *)
Lemma centre_round_trip_exact (st : MatchState) :
  centre_freq
    (table_effect DecreaseCentre (table_effect IncreaseCentre st))
  == centre_freq st.
Proof.
  simpl. field. intro H. pose proof octave_factor_positive. lra.
Qed.

(** ** The claims about the transition function *)

(** C5: from the defaults (2000 Hz, 320 Hz, 3 s) the [if]/[elif] chain
    implements the transition table: each key has the effect the table
    gives its command (the centre frequency is multiplied or divided by
    the one-third-octave factor, the bandwidth moves by 50 Hz, the
    duration by 1 s, replaying changes nothing) and the exit key leaves
    the loop; increasing the centre, increasing the bandwidth and
    finishing returns centre = 2000 * 2^(1/3), about 2519.84, bandwidth
    370, sample rate 44100 and duration 3. *)
Theorem dispatch_implements_table (D : design) (g : rng) :
  initial_state = mkState 2000 320 3 44100 /\
  (forall c st,
     dispatch (key c) st
     = match c with
       | Finish => Break
       | _ => Next (table_effect c st) []
       end) /\
  (forall st, table_effect Replay st = st) /\
  snd (tinnitus_matching D g
         [key IncreaseCentre; key IncreaseBandwidth; key Finish])
  = Returned (2000 * octave_factor) 370 44100 3 /\
  251984 # 100 <= 2000 * octave_factor /\
  2000 * octave_factor <= 251985 # 100 /\
  Qabs (octave_factor * octave_factor * octave_factor - 2)
  <= 1 # 1000000000000000.
Proof.
  split; [reflexivity|]. split; [exact dispatch_key|].
  split; [reflexivity|]. split.
  - rewrite tinnitus_matching_outcome. reflexivity.
  - split; [vm_compute; discriminate|].
    split; [vm_compute; discriminate | exact octave_factor_cubed].
Qed.

(** ** The frame of the adjustments *)

Lemma outcome_sample_rate (inputs : list string) :
  forall st c b s d,
    outcome_of inputs st = Returned c b s d -> s = sample_rate st.
Proof.
  induction inputs as [|i rest IH]; intros st c b s d; simpl;
    destruct (synth_check st); try discriminate.
  destruct (dispatch i st) as [st' printed|] eqn:E.
  - intro H. rewrite (IH _ _ _ _ _ H). exact (dispatch_sample_rate _ _ _ _ E).
  - intro H. now injection H as _ _ <- _.
Qed.

Lemma loop_rates (D : design) (inputs : list string) :
  forall st g,
    Forall (fun e => forall s, rate_of e = Some s -> s = sample_rate st)
           (fst (loop D inputs st g)).
Proof.
  assert (Hmenu : forall r : Q,
             Forall (fun e => forall s, rate_of e = Some s -> s = r)
                    (map EvPrint menu)).
  { intro r. apply Forall_forall. intros e He.
    apply in_map_iff in He. destruct He as (l & <- & _). discriminate. }
  induction inputs as [|i rest IH]; intros st g; cbn [loop];
    destruct (synth D st g) as [[y g']|e]; cbn [fst].
  - constructor; [intros s H; now injection H as <-|].
    constructor; [intros s H; now injection H as <-|]. apply Hmenu.
  - constructor; [intros s H; now injection H as <-|]. constructor.
  - assert (Hplayed :
      Forall (fun e => forall s, rate_of e = Some s -> s = sample_rate st)
        (ev_synth st :: play_sound y (sample_rate st) ++ map EvPrint menu)).
    { constructor; [intros s H; now injection H as <-|].
      constructor; [intros s H; now injection H as <-|]. apply Hmenu. }
    destruct (dispatch i st) as [st' printed|] eqn:E.
    + specialize (IH st' g').
      rewrite (dispatch_sample_rate _ _ _ _ E) in IH.
      destruct (loop D rest st' g') as [tr o]. cbn [fst] in *.
      apply Forall_app. split; [exact Hplayed|].
      constructor; [discriminate|].
      apply Forall_app. split; [|exact IH].
      destruct (dispatch_printed _ _ _ _ E) as [-> | ->].
      * constructor.
      * constructor; [discriminate | constructor].
    + cbn [fst]. apply Forall_app. split; [exact Hplayed|].
      constructor; [discriminate | constructor].
  - constructor; [intros s H; now injection H as <-|]. constructor.
Qed.

(** C9: every adjustment modifies exactly one variable.  The key of an
    adjustment gives the variable it adjusts its new value (the centre
    frequency times or over the one-third-octave factor, the bandwidth
    plus or minus 50, the duration plus or minus 1), which differs from
    the old one (for the centre keys: unless the centre frequency is 0),
    and leaves every other variable as it was; no console line at all
    changes the sample rate, which is 44100 Hz in every synthesis and
    playback of a session and in the tuple the session returns. *)
Theorem adjustments_change_one_field
    (D : design) (g : rng) (inputs : list string) :
  (forall c st st' printed f,
     dispatch (key c) st = Next st' printed ->
     adjusted c <> Some f -> get f st' = get f st) /\
  (forall c st st' printed f,
     dispatch (key c) st = Next st' printed ->
     adjusted c = Some f ->
     get f st'
     = match c with
       | IncreaseCentre => centre_freq st * octave_factor
       | DecreaseCentre => centre_freq st / octave_factor
       | IncreaseBandwidth => bandwidth st + 50
       | DecreaseBandwidth => bandwidth st - 50
       | IncreaseDuration => duration_sec st + 1
       | DecreaseDuration => duration_sec st - 1
       | Replay | Finish => get f st
       end /\
     (f = FCentre -> ~ centre_freq st == 0 -> ~ get f st' == get f st) /\
     (f <> FCentre -> ~ get f st' == get f st)) /\
  (forall u st st' printed,
     dispatch u st = Next st' printed -> sample_rate st' = sample_rate st) /\
  Forall (fun e => forall s, rate_of e = Some s -> s = 44100)
         (fst (tinnitus_matching D g inputs)) /\
  (forall c b s d,
     snd (tinnitus_matching D g inputs) = Returned c b s d -> s = 44100).
Proof.
  split; [|split; [|split; [exact dispatch_sample_rate | split]]].
  - intros c st st' printed f. rewrite dispatch_key.
    destruct c; intro H; try discriminate; injection H as <- _;
      destruct f; simpl; intro Hf; congruence.
  - intros c st st' printed f. rewrite dispatch_key.
    destruct c; intro H; try discriminate; injection H as <- _;
      intro Hf; simpl in Hf; try discriminate; injection Hf as <-;
      cbn [get table_effect centre_freq bandwidth duration_sec];
      (split; [reflexivity|]); (split; [|intro Hne]);
      try congruence; try (intro H; lra).
    + intros _ Hc H. apply Hc. unfold octave_factor in H. lra.
    + intros _ Hc H. apply Hc.
      change (centre_freq st / octave_factor)
        with (centre_freq st * (4503599627370496 # 5674179970822795)) in H.
      lra.
  - unfold tinnitus_matching.
    pose proof (loop_rates D inputs initial_state g) as H.
    destruct (loop D inputs initial_state g) as [tr o]. cbn [fst] in *.
    constructor; [discriminate | exact H].
  - intros c b s d. rewrite tinnitus_matching_outcome.
    intro H. exact (outcome_sample_rate _ _ _ _ _ _ H).
Qed.

Lemma adjustments_change_one_field_witness :
  get FBandwidth (table_effect IncreaseCentre initial_state)
  = get FBandwidth initial_state /\
  get FBandwidth (table_effect IncreaseBandwidth initial_state) = 320 + 50 /\
  ~ get FCentre (table_effect IncreaseCentre initial_state)
    == get FCentre initial_state.
Proof.
  pose proof (adjustments_change_one_field identity_design square_rng [])
    as (H1 & H2 & _).
  split; [|split].
  - apply (H1 IncreaseCentre initial_state _ [] FBandwidth);
      [reflexivity | discriminate].
  - exact (proj1 (H2 IncreaseBandwidth initial_state _ [] FBandwidth
                     eq_refl eq_refl)).
  - destruct (H2 IncreaseCentre initial_state _ [] FCentre eq_refl eq_refl)
      as (_ & H & _).
    apply H; [reflexivity | discriminate].
Defined.

(** ** The shape of a turn *)

Lemma loop_raise (D : design) (inputs : list string) (st : MatchState)
    (g : rng) (e : exn) :
  synth D st g = Raise e ->
  loop D inputs st g = ([ev_synth st], Raised e st).
Proof.
  intro H. destruct inputs; cbn [loop]; now rewrite H.
Qed.

Lemma loop_nil (D : design) (st : MatchState) (g g' : rng) (y : list Q) :
  synth D st g = Ok (y, g') ->
  loop D [] st g = (played st y, AwaitingInput st).
Proof.
  intro H. cbn [loop]. now rewrite H.
Qed.

Lemma loop_break (D : design) (i : string) (rest : list string)
    (st : MatchState) (g g' : rng) (y : list Q) :
  synth D st g = Ok (y, g') ->
  dispatch i st = Break ->
  loop D (i :: rest) st g
  = (played st y ++ [EvInput prompt i],
     Returned (centre_freq st) (bandwidth st) (sample_rate st)
              (duration_sec st)).
Proof.
  intros H Hd. cbn [loop]. now rewrite H, Hd.
Qed.

Lemma loop_next (D : design) (i : string) (rest : list string)
    (st st' : MatchState) (printed : list event) (g g' : rng) (y : list Q) :
  synth D st g = Ok (y, g') ->
  dispatch i st = Next st' printed ->
  loop D (i :: rest) st g
  = (played st y ++ EvInput prompt i :: printed
       ++ fst (loop D rest st' g'),
     snd (loop D rest st' g')).
Proof.
  intros H Hd. cbn [loop]. rewrite H, Hd.
  now destruct (loop D rest st' g').
Qed.

Lemma loop_head (D : design) (inputs : list string) (st : MatchState)
    (g g' : rng) (y : list Q) :
  synth D st g = Ok (y, g') ->
  exists tail,
    fst (loop D inputs st g) = played st y ++ tail /\
    (forall a rest, inputs = a :: rest ->
       exists tail', tail = EvInput prompt a :: tail').
Proof.
  intro H. destruct inputs as [|i rest].
  - rewrite (loop_nil D st g g' y H). exists []. split.
    + cbn [fst]. now rewrite app_nil_r.
    + discriminate.
  - destruct (dispatch i st) as [st' printed|] eqn:E.
    + rewrite (loop_next D i rest st st' printed g g' y H E).
      eexists. split; [reflexivity|].
      intros a r Heq. injection Heq as <- <-. eexists. reflexivity.
    + rewrite (loop_break D i rest st g g' y H E).
      eexists. split; [reflexivity|].
      intros a r Heq. injection Heq as <- <-. eexists. reflexivity.
Qed.

Lemma synth_ok_check (D : design) (st : MatchState) (g g' : rng)
    (y : list Q) :
  synth D st g = Ok (y, g') -> synth_check st = None.
Proof.
  intro H. destruct (synth_check st) as [e|] eqn:E; [|reflexivity].
  rewrite (synth_raise D st g e E) in H. discriminate.
Qed.

Lemma played_no_input (st : MatchState) (y : list Q) :
  Forall (fun e => is_input e = false) (played st y).
Proof.
  unfold played, play_sound. repeat constructor.
Qed.

Lemma answers_of_app (tr1 tr2 : list event) :
  answers_of (tr1 ++ tr2) = (answers_of tr1 ++ answers_of tr2)%list.
Proof.
  induction tr1 as [|e tr1 IH]; [reflexivity|].
  destruct e; simpl; now rewrite IH.
Qed.

Lemma answers_of_no_input (tr : list event) :
  Forall (fun e => is_input e = false) tr -> answers_of tr = [].
Proof.
  induction 1 as [|e tr He _ IH]; [reflexivity|].
  destruct e; simpl in *; try exact IH. discriminate.
Qed.

(** A read that lies behind a stretch without reads lies in what
    follows the stretch. *)
Lemma split_after_no_input (A X : list event) :
  Forall (fun e => is_input e = false) A ->
  forall pre p a post,
    (A ++ X = pre ++ EvInput p a :: post)%list ->
    exists pre', pre = (A ++ pre')%list /\
                 X = (pre' ++ EvInput p a :: post)%list.
Proof.
  induction 1 as [|e A He _ IH]; intros pre p a post Heq.
  - now exists pre.
  - destruct pre as [|e' pre].
    + simpl in Heq. injection Heq as -> _. discriminate.
    + simpl in Heq. injection Heq as <- Heq.
      destruct (IH _ _ _ _ Heq) as (pre' & -> & HX).
      now exists pre'.
Qed.

Lemma no_read_in (A : list event) (pre post : list event) (p a : string) :
  Forall (fun e => is_input e = false) A ->
  A <> (pre ++ EvInput p a :: post)%list.
Proof.
  intros HA Heq. rewrite <- (app_nil_r A) in Heq.
  destruct (split_after_no_input A [] HA _ _ _ _ Heq) as (pre' & _ & H).
  now destruct pre'.
Qed.

Lemma printed_no_input (u : string) (st st' : MatchState)
    (printed : list event) :
  dispatch u st = Next st' printed ->
  Forall (fun e => is_input e = false) printed.
Proof.
  intro H. destruct (dispatch_printed _ _ _ _ H) as [-> | ->];
    repeat constructor.
Qed.

Lemma synth_length (D : design) (st : MatchState) (g g' : rng)
    (buf : list Q) :
  synth D st g = Ok (buf, g') ->
  Z.of_nat (length buf) = py_int (duration_sec st * sample_rate st).
Proof.
  intro H.
  destruct (synth_ok D st g (synth_ok_check D st g g' buf H))
    as (buf2 & g2 & H2 & Hlen).
  rewrite H in H2. now injection H2 as <- _.
Qed.

(** Every console read of the loop comes right after the synthesis and
    the playback of the state the reads before it have led to; what is
    played is the buffer that synthesis returned. *)
Lemma loop_read_after_play (D : design) (inputs : list string) :
  forall st g pre p a post,
    fst (loop D inputs st g) = (pre ++ EvInput p a :: post)%list ->
    exists pre0 buf g',
      pre = (pre0 ++ played (state_after st (answers_of pre0)) buf)%list /\
      synth D (state_after st (answers_of pre0))
        (rng_before D (answers_of pre0) st g) = Ok (buf, g').
Proof.
  induction inputs as [|i rest IH]; intros st g pre p a post Heq.
  - exfalso. destruct (synth D st g) as [[y g']|e] eqn:E.
    + rewrite (loop_nil D st g g' y E) in Heq.
      exact (no_read_in _ _ _ _ _ (played_no_input st y) Heq).
    + rewrite (loop_raise D [] st g e E) in Heq.
      refine (no_read_in [ev_synth st] _ _ _ _ _ Heq).
      repeat constructor.
  - destruct (synth D st g) as [[y g']|e] eqn:E.
    + destruct (dispatch i st) as [st' printed|] eqn:Ed.
      * rewrite (loop_next D i rest st st' printed g g' y E Ed) in Heq.
        cbn [fst] in Heq.
        destruct (split_after_no_input _ _ (played_no_input st y)
                    _ _ _ _ Heq) as (pre' & -> & HX).
        destruct pre' as [|e' pre'].
        -- exists [], y, g'. split; [now rewrite app_nil_r | exact E].
        -- simpl in HX. injection HX as <- HX.
           destruct (split_after_no_input _ _
                       (printed_no_input _ _ _ _ Ed) _ _ _ _ HX)
             as (pre3 & -> & Htr).
           destruct (IH st' g' pre3 p a post Htr)
             as (pre0 & buf & g2 & -> & Hs).
           exists (played st y ++ EvInput prompt i :: printed ++ pre0)%list,
                  buf, g2.
           rewrite answers_of_app.
           rewrite (answers_of_no_input _ (played_no_input st y)).
           cbn [app answers_of]. rewrite answers_of_app.
           rewrite (answers_of_no_input _ (printed_no_input _ _ _ _ Ed)).
           cbn [app state_after rng_before]. rewrite Ed, E.
           split; [|exact Hs].
           rewrite <- !app_assoc. cbn [app]. now rewrite <- !app_assoc.
      * rewrite (loop_break D i rest st g g' y E Ed) in Heq.
        cbn [fst] in Heq.
        destruct (split_after_no_input _ _ (played_no_input st y)
                    _ _ _ _ Heq) as (pre' & -> & HX).
        destruct pre' as [|e' pre'].
        -- exists [], y, g'. split; [now rewrite app_nil_r | exact E].
        -- exfalso. simpl in HX. injection HX as _ HX. now destruct pre'.
    + exfalso. rewrite (loop_raise D (i :: rest) st g e E) in Heq.
      refine (no_read_in [ev_synth st] _ _ _ _ _ Heq).
      repeat constructor.
Qed.

Lemma initial_synth_ok (D : design) (g : rng) :
  exists buf g', synth D initial_state g = Ok (buf, g').
Proof.
  destruct (synth_ok D initial_state g eq_refl) as (buf & g' & H & _).
  now exists buf, g'.
Qed.

(** ** The claims about the order of events *)

(** C10: in every run, whatever the console lines are, the trace starts
    with the synthesis and the playback of the default stimulus
    (2000 Hz, 320 Hz, 3 s at 44100 Hz), before the first line is read:
    what is played is the buffer [generate_bandpass_noise] returned for
    the defaults, 132300 samples long.  Every console read comes right
    after the synthesis, the playback and the menu of the state that the
    lines read before it have led to: what is played there is the buffer
    the shaper returned for that state, from the generator as the earlier
    turns left it, with as many samples as the state's duration times
    its sample rate.  When the first line is the exit key the default
    stimulus has been synthesized and played exactly once before the
    session returns the defaults. *)
Theorem synthesis_and_playback_precede_read
    (D : design) (g : rng) (inputs : list string) :
  (exists buf g' tail,
     synth D initial_state g = Ok (buf, g') /\
     Z.of_nat (length buf) = 132300%Z /\
     fst (tinnitus_matching D g inputs)
     = EvPrint msg_start :: (played initial_state buf ++ tail)%list /\
     played initial_state buf
     = EvSynth 2000 320 3 44100 :: EvPlay buf 44100 :: map EvPrint menu /\
     (forall a rest, inputs = a :: rest ->
        exists tail', tail = EvInput prompt a :: tail')) /\
  (forall pre p a post,
     fst (tinnitus_matching D g inputs) = (pre ++ EvInput p a :: post)%list ->
     exists pre0 buf g',
       let st := state_after initial_state (answers_of pre0) in
       pre = (pre0 ++ played st buf)%list /\
       synth D st (rng_before D (answers_of pre0) initial_state g)
       = Ok (buf, g') /\
       Z.of_nat (length buf) = py_int (duration_sec st * sample_rate st)) /\
  (forall rest,
     exists buf g',
       synth D initial_state g = Ok (buf, g') /\
       Z.of_nat (length buf) = 132300%Z /\
       tinnitus_matching D g (key Finish :: rest)
       = (EvPrint msg_start
            :: (played initial_state buf
                  ++ [EvInput prompt (key Finish)])%list,
          Returned 2000 320 44100 3) /\
       count_events is_synth
         (fst (tinnitus_matching D g (key Finish :: rest))) = 1%nat /\
       count_events is_play
         (fst (tinnitus_matching D g (key Finish :: rest))) = 1%nat).
Proof.
  destruct (initial_synth_ok D g) as (buf & g' & Hs).
  pose proof (synth_length D initial_state g g' buf Hs) as Hlen.
  change (py_int (duration_sec initial_state * sample_rate initial_state))
    with 132300%Z in Hlen.
  split; [|split].
  - destruct (loop_head D inputs initial_state g g' buf Hs)
      as (tail & Htr & Hin).
    exists buf, g', tail. unfold tinnitus_matching.
    destruct (loop D inputs initial_state g) as [tr o]. cbn [fst] in *.
    split; [exact Hs|]. split; [exact Hlen|].
    split; [now rewrite Htr|]. split; [reflexivity | exact Hin].
  - intros pre p a post. unfold tinnitus_matching.
    pose proof (loop_read_after_play D inputs initial_state g) as H.
    destruct (loop D inputs initial_state g) as [tr o]. cbn [fst] in *.
    intro Heq. destruct pre as [|e pre]; [discriminate|].
    simpl in Heq. injection Heq as <- Heq.
    destruct (H pre p a post Heq) as (pre0 & b & g2 & -> & Hb).
    exists (EvPrint msg_start :: pre0), b, g2. cbn zeta.
    cbn [answers_of]. split; [reflexivity|]. split; [exact Hb|].
    exact (synth_length D _ _ _ _ Hb).
  - intro rest. exists buf, g'. unfold tinnitus_matching.
    rewrite (loop_break D (key Finish) rest initial_state g g' buf Hs
               eq_refl).
    split; [exact Hs|]. split; [exact Hlen|].
    split; [reflexivity|]. split; reflexivity.
Qed.

Lemma outcome_of_raise (inputs : list string) (st : MatchState) (e : exn) :
  synth_check st = Some e -> outcome_of inputs st = Raised e st.
Proof.
  intro H. destruct inputs; simpl; now rewrite H.
Qed.

Lemma outcome_of_next (i : string) (rest : list string)
    (st st' : MatchState) (printed : list event) :
  synth_check st = None ->
  dispatch i st = Next st' printed ->
  outcome_of (i :: rest) st = outcome_of rest st'.
Proof.
  intros H Hd. cbn [outcome_of]. now rewrite H, Hd.
Qed.

(** ** The claims about unrecognized lines and failures *)

(** C6, as stated, does not hold: after the unrecognized line "x" the
    session prints its feedback and then synthesizes and plays the
    unchanged default stimulus again, before anything else is read. *)
Lemma unrecognized_line_triggers_playback :
  unrecognized "x" /\
  after_last_input []
    (map shape_of (fst (tinnitus_matching identity_design square_rng ["x"%string])))
  = SPrint msg_invalid :: SSynth 2000 320 3 44100 :: SPlay 132300 44100
      :: map SPrint menu /\
  snd (tinnitus_matching identity_design square_rng ["x"%string])
  = AwaitingInput initial_state.
Proof.
  split; [|split].
  - intros []; discriminate.
  - rewrite tinnitus_matching_shapes. reflexivity.
  - rewrite tinnitus_matching_outcome. reflexivity.
Qed.

(** C6, amended: for every unrecognized line read in a turn whose
    synthesis succeeded, the variables are unchanged, the invalid-input
    feedback is printed and the loop goes on from the same state; going
    on, it synthesizes and plays the unchanged stimulus again before it
    reads the next line (the exit key is the only line that is not
    followed by a synthesis and a playback); with no further line the
    session is left active in that same state. *)
Theorem unrecognized_line_replays
    (D : design) (u : string) (rest : list string) (st : MatchState)
    (g g' : rng) (buf : list Q) :
  unrecognized u ->
  synth D st g = Ok (buf, g') ->
  dispatch u st = Next st [EvPrint msg_invalid] /\
  exists buf' g'' tail,
    synth D st g' = Ok (buf', g'') /\
    fst (loop D rest st g') = (played st buf' ++ tail)%list /\
    (forall a rest', rest = a :: rest' ->
       exists tail', tail = EvInput prompt a :: tail') /\
    loop D (u :: rest) st g
    = ((played st buf ++ EvInput prompt u :: EvPrint msg_invalid
          :: played st buf' ++ tail)%list,
       snd (loop D rest st g')) /\
    (rest = [] -> snd (loop D rest st g') = AwaitingInput st).
Proof.
  intros Hu Hs.
  pose proof (dispatch_unrecognized u st Hu) as Hd.
  split; [exact Hd|].
  destruct (synth_ok D st g' (synth_ok_check D st g g' buf Hs))
    as (buf' & g'' & Hs' & _).
  destruct (loop_head D rest st g' g'' buf' Hs') as (tail & Htr & Hin).
  exists buf', g'', tail.
  split; [exact Hs'|]. split; [exact Htr|]. split; [exact Hin|]. split.
  - rewrite (loop_next D u rest st st _ g g' buf Hs Hd), Htr. reflexivity.
  - intros ->. now rewrite (loop_nil D st g' g'' buf' Hs').
Qed.

Lemma unrecognized_line_replays_witness :
  dispatch "x" initial_state = Next initial_state [EvPrint msg_invalid].
Proof.
  destruct (synth_ok identity_design initial_state square_rng eq_refl)
    as (buf & g' & Hs & _).
  refine (proj1 (unrecognized_line_replays identity_design "x" []
                   initial_state square_rng g' buf _ Hs)).
  intros []; discriminate.
Defined.

(** C2, as stated, does not hold.  Three times "decrease duration" from
    the defaults gives a duration of 0, and the synthesis that follows
    does not fail: an empty buffer is generated, shaped and played, and
    the session waits for the next line.  The fourth gives a duration of
    -1; the synthesis raises, nothing catches the exception, and the
    session ends with it instead of staying active: the line "7" that
    follows is never read. *)
Lemma synthesis_failure_ends_session_example :
  (snd (tinnitus_matching identity_design square_rng
          ["6"; "6"; "6"]%string)
   = AwaitingInput (mkState 2000 320 0 44100) /\
   after_last_input []
     (map shape_of
        (fst (tinnitus_matching identity_design square_rng
                ["6"; "6"; "6"]%string)))
   = SSynth 2000 320 0 44100 :: SPlay 0 44100 :: map SPrint menu) /\
  (snd (tinnitus_matching identity_design square_rng
          ["6"; "6"; "6"; "6"; "7"]%string)
   = Raised (ValueError msg_negative_dimensions)
            (mkState 2000 320 (-1) 44100) /\
   after_last_input []
     (map shape_of
        (fst (tinnitus_matching identity_design square_rng
                ["6"; "6"; "6"; "6"; "7"]%string)))
   = [SSynth 2000 320 (-1) 44100]).
Proof.
  rewrite !tinnitus_matching_outcome, !tinnitus_matching_shapes.
  repeat split.
Qed.

(** C2, amended: no failure of a synthesis attempt is caught.  A command
    is applied to the variables first and the synthesis is attempted
    afterwards; when that synthesis raises, the exception leaves the
    session, which ends there with the changed variables and reads no
    further line (nothing is rolled back and nothing is reported).  From
    the defaults, three times "decrease duration" gives a duration of 0,
    at which the synthesis still succeeds and the session stays active;
    the fourth gives -1, at which the noise source raises and the session
    ends, whatever lines follow. *)
Theorem synthesis_failure_ends_session (D : design) (g : rng) :
  (forall i rest st st' printed g0 g1 buf e,
     synth D st g0 = Ok (buf, g1) ->
     dispatch i st = Next st' printed ->
     synth D st' g1 = Raise e ->
     loop D (i :: rest) st g0
     = ((played st buf ++ EvInput prompt i :: printed ++ [ev_synth st'])%list,
        Raised e st')) /\
  snd (tinnitus_matching D g
         [key DecreaseDuration; key DecreaseDuration; key DecreaseDuration])
  = AwaitingInput (mkState 2000 320 0 44100) /\
  (forall rest,
     exists e,
       snd (tinnitus_matching D g
              (key DecreaseDuration :: key DecreaseDuration
                 :: key DecreaseDuration :: key DecreaseDuration :: rest))
       = Raised e (mkState 2000 320 (-1) 44100) /\
       invalid_parameter e).
Proof.
  split; [|split].
  - intros i rest st st' printed g0 g1 buf e Hs Hd He.
    rewrite (loop_next D i rest st st' printed g0 g1 buf Hs Hd).
    now rewrite (loop_raise D rest st' g1 e He).
  - rewrite tinnitus_matching_outcome. reflexivity.
  - intro rest. rewrite tinnitus_matching_outcome.
    exists (ValueError msg_negative_dimensions). split; [|reflexivity].
    rewrite (outcome_of_next "6" _ initial_state
               (mkState 2000 320 2 44100) [] eq_refl eq_refl).
    rewrite (outcome_of_next "6" _ (mkState 2000 320 2 44100)
               (mkState 2000 320 1 44100) [] eq_refl eq_refl).
    rewrite (outcome_of_next "6" _ (mkState 2000 320 1 44100)
               (mkState 2000 320 0 44100) [] eq_refl eq_refl).
    rewrite (outcome_of_next "6" _ (mkState 2000 320 0 44100)
               (mkState 2000 320 (-1) 44100) [] eq_refl eq_refl).
    now apply outcome_of_raise.
Qed.

Lemma synthesis_failure_ends_session_witness :
  exists buf g1,
    loop identity_design ["6"%string; "7"%string]
         (mkState 2000 320 0 44100) square_rng
    = ((played (mkState 2000 320 0 44100) buf
          ++ EvInput prompt "6" :: []
          ++ [ev_synth (mkState 2000 320 (0 - 1) 44100)])%list,
       Raised (ValueError msg_negative_dimensions)
              (mkState 2000 320 (0 - 1) 44100)) /\
    synth identity_design (mkState 2000 320 0 44100) square_rng
    = Ok (buf, g1).
Proof.
  destruct (synth_ok identity_design (mkState 2000 320 0 44100) square_rng
              eq_refl) as (buf & g1 & Hs & _).
  exists buf, g1. split; [|exact Hs].
  apply (proj1 (synthesis_failure_ends_session identity_design square_rng)
           "6"%string ["7"%string] (mkState 2000 320 0 44100)
           (mkState 2000 320 (0 - 1) 44100) [] square_rng g1 buf
           (ValueError msg_negative_dimensions) Hs eq_refl).
  apply synth_raise. reflexivity.
Defined.

(** * Further properties of the session *)

(** ** Where a run stops reading *)

Lemma dispatch_break (i : string) (st : MatchState) :
  dispatch i st = Break <-> i = "0"%string.
Proof.
  destruct (key_or_unrecognized i) as [[c ->]|Hu].
  - rewrite dispatch_key. destruct c; split; intro H; try discriminate;
      reflexivity.
  - rewrite (dispatch_unrecognized i st Hu). split; [discriminate|].
    intro H. exfalso. exact (Hu Finish H).
Qed.

Lemma dispatch_next_not_exit (i : string) (st st' : MatchState)
    (printed : list event) :
  dispatch i st = Next st' printed -> (i =? "0")%string = false.
Proof.
  intro H. apply String.eqb_neq. intro Hi.
  apply (dispatch_break i st) in Hi. congruence.
Qed.

Lemma before_exit_no_exit (inputs : list string) :
  ~ In "0"%string (before_exit inputs).
Proof.
  induction inputs as [|i rest IH]; simpl; [tauto|].
  destruct (String.eqb_spec i "0"); simpl; [tauto|].
  intros [H|H]; [congruence | exact (IH H)].
Qed.

Lemma before_exit_split (inputs : list string) :
  In "0"%string inputs ->
  exists rest, inputs = (before_exit inputs ++ "0"%string :: rest)%list.
Proof.
  induction inputs as [|i rest IH]; simpl; [tauto|].
  destruct (String.eqb_spec i "0") as [->|Hi].
  - intros _. now exists rest.
  - intros [H|H]; [congruence|].
    destruct (IH H) as (r & Hr). exists r. simpl. now rewrite <- Hr.
Qed.

Lemma before_exit_all (inputs : list string) :
  ~ In "0"%string inputs -> before_exit inputs = inputs.
Proof.
  induction inputs as [|i rest IH]; simpl; [reflexivity|].
  intro H. destruct (String.eqb_spec i "0") as [->|Hi]; [tauto|].
  rewrite IH; tauto.
Qed.

Lemma state_eta (st : MatchState) :
  mkState (centre_freq st) (bandwidth st) (duration_sec st) (sample_rate st)
  = st.
Proof. now destruct st. Qed.

(** The run returns exactly when the script holds an exit key and every
    state on the way to the first one gets through its synthesis; what
    it returns is the state the lines before that key lead to. *)
Lemma outcome_returned_iff (inputs : list string) :
  forall st c b s d,
    outcome_of inputs st = Returned c b s d <->
    In "0"%string inputs /\
    synthesizable_along st (before_exit inputs) = true /\
    snapshot (state_after st (before_exit inputs)) = Returned c b s d.
Proof.
  induction inputs as [|i rest IH]; intros st c b s d.
  - simpl. destruct (synth_check st); split; try discriminate;
      intros (H & _); contradiction.
  - cbn [outcome_of before_exit].
    destruct (synth_check st) as [e|] eqn:E.
    + split; [discriminate|]. intros (_ & H & _).
      destruct (i =? "0")%string; simpl in H; rewrite E in H; discriminate.
    + destruct (dispatch i st) as [st' printed|] eqn:Ed.
      * rewrite (dispatch_next_not_exit _ _ _ _ Ed).
        cbn [synthesizable_along state_after]. rewrite E, Ed, IH.
        assert (Hi : i <> "0"%string)
          by (apply String.eqb_neq, (dispatch_next_not_exit _ _ _ _ Ed)).
        simpl. intuition congruence.
      * apply dispatch_break in Ed. subst i. simpl. rewrite E.
        unfold snapshot. intuition.
Qed.

Lemma outcome_awaiting (inputs : list string) :
  forall st st',
    outcome_of inputs st = AwaitingInput st' ->
    ~ In "0"%string inputs /\ st' = state_after st inputs /\
    synthesizable_along st inputs = true.
Proof.
  induction inputs as [|i rest IH]; intros st st'; simpl;
    destruct (synth_check st) as [e|] eqn:E; try discriminate.
  - intro H. injection H as <-. tauto.
  - destruct (dispatch i st) as [st1 printed|] eqn:Ed; [|discriminate].
    intro H. destruct (IH _ _ H) as (H1 & H2 & H3).
    assert (Hi : i <> "0"%string)
      by (apply String.eqb_neq, (dispatch_next_not_exit _ _ _ _ Ed)).
    repeat split; [intros [Hx|Hx]; congruence | exact H2 | exact H3].
Qed.

Lemma synthesizable_last (answers : list string) :
  forall st,
    synthesizable_along st answers = true ->
    synth_check (state_after st answers) = None.
Proof.
  induction answers as [|a rest IH]; intros st; simpl;
    destruct (synth_check st) as [e|] eqn:E; try discriminate.
  - reflexivity.
  - destruct (dispatch a st) as [st' printed|]; [apply IH | now rewrite E].
Qed.

(** ** The additive steps in closed form *)

Lemma presses_unrecognized (u : string) (c : Command) (rest : list string) :
  unrecognized u -> presses (key c) (u :: rest) = presses (key c) rest.
Proof.
  intro Hu. cbn [presses].
  now rewrite (proj2 (String.eqb_neq u (key c)) (Hu c)).
Qed.

Lemma state_after_closed_form (answers : list string) :
  forall st,
    ~ In "0"%string answers ->
    bandwidth (state_after st answers)
    == bandwidth st
       + 50 * inject_Z (presses "3" answers - presses "4" answers) /\
    duration_sec (state_after st answers)
    == duration_sec st
       + inject_Z (presses "5" answers - presses "6" answers) /\
    sample_rate (state_after st answers) = sample_rate st.
Proof.
  induction answers as [|a rest IH]; intros st Hno.
  - simpl. repeat split; ring.
  - assert (Hrest : ~ In "0"%string rest) by (intro; apply Hno; now right).
    destruct (key_or_unrecognized a) as [[c ->]|Hu].
    + cbn [state_after]. rewrite dispatch_key.
      destruct c;
        try (match goal with
             | |- context [state_after ?s rest] =>
                 destruct (IH s Hrest) as (Hb & Hd & Hs)
             end;
             rewrite Hb, Hd, Hs;
             cbn [table_effect bandwidth duration_sec sample_rate presses
                  String.eqb Ascii.eqb Bool.eqb key];
             rewrite ?Z.add_0_l; unfold Z.sub;
             repeat (rewrite inject_Z_plus || rewrite inject_Z_opp);
             change (inject_Z 1) with 1;
             split; [ring | split; [ring | reflexivity]]).
      exfalso. apply Hno. now left.
    + cbn [state_after]. rewrite (dispatch_unrecognized a st Hu).
      destruct (IH st Hrest) as (Hb & Hd & Hs).
      pose proof (presses_unrecognized a IncreaseBandwidth rest Hu) as P3.
      pose proof (presses_unrecognized a DecreaseBandwidth rest Hu) as P4.
      pose proof (presses_unrecognized a IncreaseDuration rest Hu) as P5.
      pose proof (presses_unrecognized a DecreaseDuration rest Hu) as P6.
      cbn [key] in P3, P4, P5, P6. rewrite P3, P4, P5, P6.
      now repeat split.
Qed.

Lemma tinnitus_matching_fst (D : design) (g : rng) (inputs : list string) :
  fst (tinnitus_matching D g inputs)
  = EvPrint msg_start :: fst (loop D inputs initial_state g).
Proof.
  unfold tinnitus_matching. now destruct (loop D inputs initial_state g).
Qed.

Lemma tinnitus_matching_eq (D : design) (g : rng) (inputs : list string) :
  tinnitus_matching D g inputs
  = (EvPrint msg_start :: fst (loop D inputs initial_state g),
     snd (loop D inputs initial_state g)).
Proof.
  unfold tinnitus_matching. now destruct (loop D inputs initial_state g).
Qed.

Lemma loop_after_exit (D : design) (pre rest rest' : list string) :
  forall st g,
    loop D (pre ++ "0"%string :: rest) st g
    = loop D (pre ++ "0"%string :: rest') st g.
Proof.
  induction pre as [|i pre IH]; intros st g; cbn [app];
    destruct (synth D st g) as [[y g']|e] eqn:E;
    try (now rewrite !(loop_raise D _ st g e E)).
  - now rewrite !(loop_break D "0" _ st g g' y E eq_refl).
  - destruct (dispatch i st) as [st' printed|] eqn:Ed.
    + rewrite !(loop_next D i _ st st' printed g g' y E Ed).
      now rewrite (IH st' g').
    + now rewrite !(loop_break D i _ st g g' y E Ed).
Qed.

Lemma loop_after_raise (D : design) (inputs more : list string) :
  forall st g e st',
    snd (loop D inputs st g) = Raised e st' ->
    loop D (inputs ++ more) st g = loop D inputs st g.
Proof.
  induction inputs as [|i rest IH]; intros st g e st' H;
    destruct (synth D st g) as [[y g']|e0] eqn:E;
    try (now rewrite !(loop_raise D _ st g e0 E)).
  - rewrite (loop_nil D st g g' y E) in H. discriminate.
  - cbn [app]. destruct (dispatch i st) as [st1 printed|] eqn:Ed.
    + rewrite (loop_next D i rest st st1 printed g g' y E Ed) in H.
      rewrite !(loop_next D i _ st st1 printed g g' y E Ed).
      now rewrite (IH st1 g' e st' H).
    + rewrite (loop_break D i rest st g g' y E Ed) in H. discriminate.
Qed.

Lemma loop_answers_prefix (D : design) (inputs : list string) :
  forall st g, exists k,
    answers_of (fst (loop D inputs st g)) = firstn k inputs.
Proof.
  induction inputs as [|i rest IH]; intros st g;
    destruct (synth D st g) as [[y g']|e] eqn:E;
    try (rewrite (loop_raise D _ st g e E); now exists 0%nat).
  - rewrite (loop_nil D st g g' y E). exists 0%nat.
    apply answers_of_no_input, played_no_input.
  - destruct (dispatch i st) as [st' printed|] eqn:Ed.
    + rewrite (loop_next D i rest st st' printed g g' y E Ed). cbn [fst].
      destruct (IH st' g') as (k & Hk). exists (S k).
      rewrite answers_of_app,
        (answers_of_no_input _ (played_no_input st y)).
      cbn [app answers_of]. rewrite answers_of_app,
        (answers_of_no_input _ (printed_no_input _ _ _ _ Ed)).
      cbn [app firstn]. now rewrite Hk.
    + rewrite (loop_break D i rest st g g' y E Ed). cbn [fst].
      exists 1%nat. rewrite answers_of_app,
        (answers_of_no_input _ (played_no_input st y)).
      reflexivity.
Qed.

(** X1: a session returns exactly when its script holds an exit key and
    every state the loop passes through on the way to the first one gets
    through its synthesis; the tuple it returns is the state that the
    lines before that key lead to from the defaults. *)
Theorem session_returns_iff
    (D : design) (g : rng) (inputs : list string) (c b s d : Q) :
  snd (tinnitus_matching D g inputs) = Returned c b s d <->
  In "0"%string inputs /\
  synthesizable_along initial_state (before_exit inputs) = true /\
  snapshot (state_after initial_state (before_exit inputs))
  = Returned c b s d.
Proof.
  rewrite tinnitus_matching_outcome. apply outcome_returned_iff.
Qed.

(** X2: the session never reads past its end.  Lines after the first
    exit key change neither the trace nor the outcome; once a synthesis
    has raised, no further line changes them either; and the lines a
    session does read are an initial stretch of its script, in order. *)
Theorem nothing_read_after_the_end (D : design) (g : rng) :
  (forall pre rest rest',
     tinnitus_matching D g (pre ++ "0"%string :: rest)
     = tinnitus_matching D g (pre ++ "0"%string :: rest')) /\
  (forall inputs more e st,
     snd (tinnitus_matching D g inputs) = Raised e st ->
     tinnitus_matching D g (inputs ++ more) = tinnitus_matching D g inputs) /\
  (forall inputs, exists k,
     answers_of (fst (tinnitus_matching D g inputs)) = firstn k inputs).
Proof.
  split; [|split].
  - intros pre rest rest'. rewrite !tinnitus_matching_eq.
    now rewrite (loop_after_exit D pre rest rest').
  - intros inputs more e st. rewrite !tinnitus_matching_eq. cbn [snd].
    intro H. now rewrite (loop_after_raise D inputs more _ _ e st H).
  - intro inputs. rewrite tinnitus_matching_fst.
    exact (loop_answers_prefix D inputs initial_state g).
Qed.

Lemma nothing_read_after_the_end_witness :
  tinnitus_matching identity_design square_rng
    (["6"; "6"; "6"; "6"]%string ++ ["3"; "0"]%string)%list
  = tinnitus_matching identity_design square_rng ["6"; "6"; "6"; "6"]%string.
Proof.
  apply (proj1 (proj2 (nothing_read_after_the_end identity_design
                         square_rng))
           ["6"; "6"; "6"; "6"]%string ["3"; "0"]%string
           (ValueError msg_negative_dimensions)
           (mkState 2000 320 (-1) 44100)).
  rewrite tinnitus_matching_outcome. reflexivity.
Defined.

(** ** What a returned tuple is worth *)

Lemma returned_state (D : design) (g : rng) (inputs : list string)
    (c b s d : Q) :
  snd (tinnitus_matching D g inputs) = Returned c b s d ->
  synth_check (mkState c b d s) = None /\
  mkState c b d s = state_after initial_state (before_exit inputs).
Proof.
  intro H. apply session_returns_iff in H. destruct H as (_ & Hs & Hr).
  apply synthesizable_last in Hs.
  unfold snapshot in Hr. injection Hr as <- <- <- <-.
  now rewrite state_eta.
Qed.

(** X3: whatever the console lines were, the tuple a session returns can
    be synthesized again: its sample rate is 44100 Hz, and the shaper
    called with it (as the script does right after the session, with any
    state of the generator) returns a buffer of
    [int(duration_sec * 44100)] samples and raises nothing. *)
Theorem returned_tuple_synthesizes_again
    (D : design) (g : rng) (inputs : list string) (c b s d : Q) :
  snd (tinnitus_matching D g inputs) = Returned c b s d ->
  s = 44100 /\
  forall g1, exists out g2,
    generate_bandpass_noise D c b d 44100 g1 = Ok (out, g2) /\
    Z.of_nat (length out) = py_int (d * 44100).
Proof.
  intro H. destruct (returned_state D g inputs c b s d H) as (Hc & _).
  assert (Hs : s = 44100).
  { rewrite tinnitus_matching_outcome in H.
    exact (outcome_sample_rate _ _ _ _ _ _ H). }
  subst s. split; [reflexivity|]. intro g1.
  destruct (synth_ok D (mkState c b d 44100) g1 Hc) as (out & g2 & Ho & Hl).
  now exists out, g2.
Qed.

Lemma returned_tuple_synthesizes_again_witness :
  exists out g2,
    generate_bandpass_noise identity_design 2000 320 3 44100 square_rng
    = Ok (out, g2) /\
    Z.of_nat (length out) = py_int (3 * 44100).
Proof.
  apply (proj2 (returned_tuple_synthesizes_again identity_design square_rng
                  ["0"%string] 2000 320 44100 3
                  (tinnitus_matching_outcome identity_design square_rng
                     ["0"%string]))).
Defined.

Lemma strict_range_unclamped (c b sr : Q) :
  cutoffs_strictly_in_range c b sr ->
  0 < b /\ b / 2 < c /\ c + b / 2 < sr / 2.
Proof.
  unfold cutoffs_strictly_in_range, lowcut_of, highcut_of, py_max, py_min.
  destruct (Qltb 0 (c - b / 2)) eqn:E1;
    destruct (Qltb (c + b / 2) (sr / 2)) eqn:E2;
    intros (H1 & H2 & H3); try lra.
  apply Qltb_lt in E1, E2. pose proof (half_eq b). lra.
Qed.

(** X4: no bound is checked when a key is pressed, yet every tuple a
    session returns is within bounds: the bandwidth is positive, the
    band lies strictly inside (0 Hz, 22050 Hz), that is
    bandwidth/2 < centre < 22050 - bandwidth/2, and the duration is a
    non-negative whole number of seconds. *)
Theorem returned_tuple_within_bounds
    (D : design) (g : rng) (inputs : list string) (c b s d : Q) :
  snd (tinnitus_matching D g inputs) = Returned c b s d ->
  0 < b /\ b / 2 < c /\ c + b / 2 < 22050 /\
  exists n : Z, (0 <= n)%Z /\ d == inject_Z n.
Proof.
  intro H. destruct (returned_state D g inputs c b s d H) as (Hc & Hst).
  assert (Hs : s = 44100).
  { rewrite tinnitus_matching_outcome in H.
    exact (outcome_sample_rate _ _ _ _ _ _ H). }
  subst s.
  destruct (state_after_closed_form (before_exit inputs) initial_state
              (before_exit_no_exit inputs)) as (_ & Hd & _).
  rewrite <- Hst in Hd. cbn [duration_sec initial_state] in Hd.
  unfold synth_check in Hc. cbn [duration_sec sample_rate centre_freq
                                  bandwidth] in Hc.
  destruct (py_int (d * 44100) <? 0)%Z eqn:En; [discriminate|].
  apply Z.ltb_ge in En.
  apply (accepted_strict_range c b 44100 eq_refl) in Hc.
  destruct (strict_range_unclamped _ _ _ Hc) as (B1 & B2 & B3).
  repeat split; try assumption.
  - assert (E : (44100 : Q) / 2 == 22050) by reflexivity.
    rewrite E in B3. exact B3.
  - set (k := (presses "5" (before_exit inputs)
               - presses "6" (before_exit inputs))%Z) in *.
    exists (3 + k)%Z. split.
    + destruct (Z.lt_ge_cases (3 + k) 0) as [Hneg|Hpos]; [|exact Hpos].
      exfalso.
      assert (Hq : inject_Z (3 + k) <= inject_Z (-1))
        by (rewrite <- Zle_Qle; lia).
      rewrite inject_Z_plus in Hq.
      change (inject_Z 3) with 3 in Hq. change (inject_Z (-1)) with (-1) in Hq.
      assert (Hbad : d * 44100 <= -1) by (rewrite Hd; lra).
      apply py_int_negative in Hbad. lia.
    + rewrite Hd, inject_Z_plus. reflexivity.
Qed.

Lemma returned_tuple_within_bounds_witness :
  0 < 370 /\ 370 / 2 < 2000 /\ 2000 + 370 / 2 < 22050 /\
  exists n : Z, (0 <= n)%Z /\ 4 == inject_Z n.
Proof.
  apply (returned_tuple_within_bounds identity_design square_rng
           ["3"; "5"; "0"]%string 2000 370 44100 4).
  rewrite tinnitus_matching_outcome. reflexivity.
Defined.

(** X5: the additive steps compose to a closed form that does not depend
    on the order of the lines: in a session that has returned, or waits
    for its next line, the bandwidth is 320 + 50 (#"3" - #"4") and the
    duration is 3 + (#"5" - #"6"), counting the lines read before the
    exit key; invalid lines, replays and the centre keys do not count. *)
Theorem additive_steps_closed_form
    (D : design) (g : rng) (inputs : list string) (c b s d : Q) :
  snd (tinnitus_matching D g inputs) = Returned c b s d \/
  snd (tinnitus_matching D g inputs) = AwaitingInput (mkState c b d s) ->
  b == 320 + 50 * inject_Z (presses "3" (before_exit inputs)
                            - presses "4" (before_exit inputs)) /\
  d == 3 + inject_Z (presses "5" (before_exit inputs)
                     - presses "6" (before_exit inputs)) /\
  s = 44100.
Proof.
  intro H.
  assert (Hst : mkState c b d s
                = state_after initial_state (before_exit inputs)).
  { destruct H as [H|H].
    - exact (proj2 (returned_state D g inputs c b s d H)).
    - rewrite tinnitus_matching_outcome in H.
      destruct (outcome_awaiting _ _ _ H) as (Hno & -> & _).
      now rewrite (before_exit_all inputs Hno). }
  destruct (state_after_closed_form (before_exit inputs) initial_state
              (before_exit_no_exit inputs)) as (Hb & Hd & Hs).
  rewrite <- Hst in Hb, Hd, Hs. now repeat split.
Qed.

Lemma additive_steps_closed_form_witness :
  370 == 320 + 50 * inject_Z (2 - 1) /\
  4 == 3 + inject_Z (1 - 0) /\
  (44100 : Q) = 44100.
Proof.
  apply (additive_steps_closed_form identity_design square_rng
           ["4"; "3"; "x"; "3"; "5"; "0"]%string 2000 370 44100 4).
  left. rewrite tinnitus_matching_outcome. reflexivity.
Defined.

(** ** Synthesis, playback and reads, counted *)

Lemma count_events_app (p : event -> bool) (tr1 tr2 : list event) :
  count_events p (tr1 ++ tr2)
  = (count_events p tr1 + count_events p tr2)%nat.
Proof.
  unfold count_events. now rewrite filter_app, length_app.
Qed.

Lemma count_printed (u : string) (st st' : MatchState)
    (printed : list event) :
  dispatch u st = Next st' printed ->
  count_events is_play printed = 0%nat /\
  count_events is_input printed = 0%nat /\
  count_events is_synth printed = 0%nat.
Proof.
  intro H. destruct (dispatch_printed _ _ _ _ H) as [-> | ->];
    repeat split.
Qed.

Lemma loop_counts (D : design) (inputs : list string) :
  forall st g,
    let tr := fst (loop D inputs st g) in
    let plays := count_events is_play tr in
    let reads := count_events is_input tr in
    let synths := count_events is_synth tr in
    match snd (loop D inputs st g) with
    | AwaitingInput _ => plays = S reads /\ synths = plays
    | Returned _ _ _ _ => plays = reads /\ synths = plays
    | Raised _ _ => plays = reads /\ synths = S plays
    end.
Proof.
  induction inputs as [|i rest IH]; intros st g;
    destruct (synth D st g) as [[y g']|e] eqn:E;
    try (rewrite (loop_raise D _ st g e E); now split).
  - rewrite (loop_nil D st g g' y E). now split.
  - destruct (dispatch i st) as [st' printed|] eqn:Ed.
    + rewrite (loop_next D i rest st st' printed g g' y E Ed).
      cbn [fst snd]. specialize (IH st' g'). cbv zeta in IH |- *.
      destruct (count_printed _ _ _ _ Ed) as (P1 & P2 & P3).
      rewrite !count_events_app.
      change (EvInput prompt i :: (printed ++ fst (loop D rest st' g'))%list)
        with ([EvInput prompt i]
                ++ (printed ++ fst (loop D rest st' g')))%list.
      rewrite !count_events_app, P1, P2, P3.
      change (count_events is_play (played st y)) with 1%nat.
      change (count_events is_input (played st y)) with 0%nat.
      change (count_events is_synth (played st y)) with 1%nat.
      change (count_events is_play [EvInput prompt i]) with 0%nat.
      change (count_events is_input [EvInput prompt i]) with 1%nat.
      change (count_events is_synth [EvInput prompt i]) with 0%nat.
      destruct (snd (loop D rest st' g')); lia.
    + rewrite (loop_break D i rest st g g' y E Ed). now split.
Qed.

(** X6: each synthesis that succeeds is played exactly once, and each
    line read costs one synthesis: in every run the trace holds as many
    playbacks as console reads when the session has returned or has been
    ended by an exception, and one more when it waits for its next line;
    it holds as many synthesis calls as playbacks, and one more (the
    call that raised) when it was ended by an exception. *)
Theorem one_playback_per_read (D : design) (g : rng) (inputs : list string) :
  let tr := fst (tinnitus_matching D g inputs) in
  let plays := count_events is_play tr in
  let reads := count_events is_input tr in
  let synths := count_events is_synth tr in
  match snd (tinnitus_matching D g inputs) with
  | AwaitingInput _ => plays = S reads /\ synths = plays
  | Returned _ _ _ _ => plays = reads /\ synths = plays
  | Raised _ _ => plays = reads /\ synths = S plays
  end.
Proof.
  rewrite tinnitus_matching_eq. cbn [fst snd].
  exact (loop_counts D inputs initial_state g).
Qed.

(** * The script after the session *)

(** ** The spectrum *)

Lemma np_fft_length (F : numerics) (a : list Q) :
  a <> [] ->
  exists r, np_fft F a = Ok r /\ length r = length a.
Proof.
  intro H. destruct a as [|x a]; [congruence|].
  eexists. split; [reflexivity|]. now rewrite length_map, length_seq.
Qed.

Lemma half_fits (n : nat) :
  (n / 2 <= Z.to_nat ((Z.of_nat n - 1) / 2 + 1))%nat.
Proof.
  pose proof (Nat.div_mod_eq n 2) as Hn.
  pose proof (Nat.mod_upper_bound n 2 ltac:(discriminate)) as Hm.
  pose proof (Z.div_mod (Z.of_nat n - 1) 2 ltac:(discriminate)) as Hz.
  pose proof (Z.mod_pos_bound (Z.of_nat n - 1) 2 ltac:(reflexivity)) as Hb.
  lia.
Qed.

Lemma fftfreq_first_half (n : nat) (d : Q) (l : list Q) (k : nat) :
  fftfreq (Z.of_nat n) d = Ok l ->
  (k < n / 2)%nat ->
  (n / 2 <= length l)%nat /\
  nth k l 0 == inject_Z (Z.of_nat k) * (1 / (inject_Z (Z.of_nat n) * d)).
Proof.
  unfold fftfreq, py_div.
  destruct (Qeq_bool (inject_Z (Z.of_nat n) * d) 0); [discriminate|].
  cbn [bind]. intros H Hk. injection H as <-.
  pose proof (half_fits n) as Hfit.
  set (N := Z.to_nat ((Z.of_nat n - 1) / 2 + 1)) in *.
  set (val := 1 / (inject_Z (Z.of_nat n) * d)).
  split.
  - rewrite length_map, length_app, !length_map, !length_seq. lia.
  - set (f := fun z : Z => inject_Z z * val).
    rewrite (nth_indep _ 0 (f 0%Z))
      by (rewrite length_map, length_app, !length_map, !length_seq; lia).
    rewrite map_nth.
    rewrite app_nth1 by (rewrite length_map, length_seq; lia).
    change 0%Z with (Z.of_nat 0). rewrite map_nth.
    rewrite seq_nth by lia. reflexivity.
Qed.

(** X9: [compute_fft] returns the one-sided spectrum.  For a signal of
    [n >= 1] samples and a positive sample rate it returns two lists of
    [n // 2] entries each; the k-th frequency is [k * sample_rate / n],
    so the axis starts at 0 Hz, rises in steps of [sample_rate / n] and
    stays strictly below Nyquist.  For an empty signal it raises the
    transform's "Invalid number of FFT data points". *)
Theorem compute_fft_one_sided (F : numerics) (signal : list Q) (sr : Q) :
  (signal = [] ->
   compute_fft F signal sr = Raise (ValueError msg_fft_points)) /\
  (signal <> [] -> 0 < sr ->
   exists freqs mags,
     compute_fft F signal sr = Ok (freqs, mags) /\
     length freqs = (length signal / 2)%nat /\
     length mags = (length signal / 2)%nat /\
     forall k, (k < length signal / 2)%nat ->
       nth k freqs 0
       == inject_Z (Z.of_nat k) * sr / inject_Z (Z.of_nat (length signal)) /\
       0 <= nth k freqs 0 /\
       nth k freqs 0 < sr / 2).
Proof.
  split; [intros ->; reflexivity|].
  intros Hne Hsr.
  destruct (np_fft_length F signal Hne) as (r & Hr & Hlen).
  set (n := length signal) in *.
  assert (Hn : (0 < n)%nat)
    by (subst n; destruct signal; [congruence | simpl; lia]).
  assert (Hnq : 0 < inject_Z (Z.of_nat n))
    by (change 0 with (inject_Z 0); rewrite <- Zlt_Qlt; lia).
  unfold compute_fft. rewrite Hr. cbn [bind]. unfold py_div at 1.
  assert (Hz : Qeq_bool sr 0 = false) by (apply Qeq_bool_false; lra).
  rewrite Hz. cbn [bind]. fold n.
  assert (Hpos : 0 < inject_Z (Z.of_nat n) * (1 / sr)).
  { apply Qmult_lt_0_compat; [exact Hnq|].
    unfold Qdiv. rewrite Qmult_1_l. now apply Qinv_lt_0_compat. }
  destruct (fftfreq (Z.of_nat n) (1 / sr)) as [l|e] eqn:El.
  2:{ exfalso. unfold fftfreq, py_div in El.
      assert (Hz' : Qeq_bool (inject_Z (Z.of_nat n) * (1 / sr)) 0 = false)
        by (apply Qeq_bool_false; lra).
      rewrite Hz' in El. discriminate. }
  cbn [bind]. eexists _, _. split; [reflexivity|].
  rewrite Hlen.
  assert (Hl : (n / 2 <= length l)%nat).
  { destruct (Nat.eq_dec (n / 2) 0) as [E0|E0]; [lia|].
    exact (proj1 (fftfreq_first_half n _ l 0 El ltac:(lia))). }
  split; [rewrite length_firstn; lia|].
  split.
  { rewrite length_map, length_firstn.
    pose proof (Nat.div_lt n 2 Hn ltac:(lia)). lia. }
  intros k Hk.
  assert (Hv : nth k (firstn (n / 2) l) 0
               == inject_Z (Z.of_nat k) * sr / inject_Z (Z.of_nat n)).
  { rewrite nth_firstn.
    destruct (k <? n / 2)%nat eqn:Ek; [|apply Nat.ltb_ge in Ek; lia].
    rewrite (proj2 (fftfreq_first_half n _ l k El Hk)).
    field. split; lra. }
  split; [exact Hv|]. rewrite Hv.
  assert (Hkq : 0 <= inject_Z (Z.of_nat k))
    by (change 0 with (inject_Z 0); rewrite <- Zle_Qle; lia).
  assert (H2k : inject_Z (Z.of_nat k) < (1 # 2) * inject_Z (Z.of_nat n)).
  { assert (Hz2 : (2 * Z.of_nat k < Z.of_nat n)%Z).
    { pose proof (Nat.div_mod_eq n 2). lia. }
    rewrite Zlt_Qlt, inject_Z_mult in Hz2.
    change (inject_Z 2) with 2 in Hz2. lra. }
  split.
  - apply Qle_shift_div_l; [exact Hnq|]. rewrite Qmult_0_l.
    apply Qmult_le_0_compat; lra.
  - apply Qlt_shift_div_r; [exact Hnq|].
    pose proof (half_eq sr).
    assert (Hp : inject_Z (Z.of_nat k) * sr
                 < (1 # 2) * inject_Z (Z.of_nat n) * sr)
      by (apply Qmult_lt_compat_r; assumption).
    rewrite H. lra.
Qed.

Lemma compute_fft_one_sided_witness :
  exists freqs mags,
    compute_fft
      {| bin := fun a k => (nth k a 0, 0);
         modulus := fun z => Qabs (fst z);
         text_of := fun _ => EmptyString |}
      [1; -1; 1; -1; 1; -1] 44100
    = Ok (freqs, mags) /\
    length freqs = 3%nat /\ length mags = 3%nat /\
    forall k, (k < 3)%nat ->
      nth k freqs 0 == inject_Z (Z.of_nat k) * 44100 / inject_Z 6 /\
      0 <= nth k freqs 0 /\
      nth k freqs 0 < 44100 / 2.
Proof.
  apply (proj2 (compute_fft_one_sided
                  {| bin := fun a k => (nth k a 0, 0);
                     modulus := fun z => Qabs (fst z);
                     text_of := fun _ => EmptyString |}
                  [1; -1; 1; -1; 1; -1] 44100)).
  - discriminate.
  - reflexivity.
Defined.

(** ** The figure *)

Lemma compute_fft_lengths (F : numerics) (signal : list Q) (sr : Q) :
  signal <> [] -> 0 < sr ->
  exists freqs mags,
    compute_fft F signal sr = Ok (freqs, mags) /\
    length freqs = (length signal / 2)%nat /\
    length mags = (length signal / 2)%nat.
Proof.
  intros Hne Hsr.
  destruct (np_fft_length F signal Hne) as (r & Hr & Hlen).
  assert (Hn : (0 < length signal)%nat)
    by (destruct signal; [congruence | simpl; lia]).
  assert (Hnq : 0 < inject_Z (Z.of_nat (length signal)))
    by (change 0 with (inject_Z 0); rewrite <- Zlt_Qlt; lia).
  assert (Hpos : 0 < inject_Z (Z.of_nat (length signal)) * (1 / sr)).
  { apply Qmult_lt_0_compat; [exact Hnq|].
    unfold Qdiv. rewrite Qmult_1_l. now apply Qinv_lt_0_compat. }
  assert (Hz : Qeq_bool sr 0 = false) by (apply Qeq_bool_false; lra).
  assert (Hz' : Qeq_bool (inject_Z (Z.of_nat (length signal)) * (1 / sr)) 0
                = false) by (apply Qeq_bool_false; lra).
  unfold compute_fft. rewrite Hr. cbn [bind]. unfold py_div at 1.
  rewrite Hz. cbn [bind]. unfold fftfreq, py_div. rewrite Hz'. cbn [bind].
  eexists _, _. split; [reflexivity|].
  pose proof (half_fits (length signal)) as Hfit.
  pose proof (Nat.div_lt (length signal) 2 Hn ltac:(lia)) as Hhalf.
  rewrite Hlen. split.
  - rewrite length_firstn, length_map, length_app, !length_map, !length_seq.
    lia.
  - rewrite length_map, length_firstn. lia.
Qed.

Lemma linspace_length (start stop : Q) (num : Z) :
  (0 <= num)%Z ->
  exists t, linspace start stop num = Ok t /\ Z.of_nat (length t) = num.
Proof.
  intro H. unfold linspace.
  destruct (num <? 0)%Z eqn:E; [apply Z.ltb_lt in E; lia|].
  eexists. split; [reflexivity|].
  set (y := map _ (seq 0 (Z.to_nat num))).
  assert (Hy : length y = Z.to_nat num)
    by (unfold y; now rewrite length_map, length_seq).
  destruct (1 <? num)%Z eqn:E1.
  - apply Z.ltb_lt in E1.
    rewrite length_app, removelast_firstn_len, length_firstn, Hy.
    simpl. lia.
  - lia.
Qed.

Lemma py_int_mul_comm (x y : Q) : py_int (x * y) = py_int (y * x).
Proof.
  destruct x as [a b], y as [c d]. unfold py_int. simpl.
  now rewrite (Z.mul_comm a c), (Pos.mul_comm b d).
Qed.

Lemma plot_same_length (x y : list Q) :
  length x = length y -> plot x y = Ok (x, y).
Proof.
  intro H. unfold plot. now rewrite H, Nat.eqb_refl.
Qed.

Lemma plot_signals_spec (D : design) (F : numerics) (c b d : Q) (g : rng) :
  synth_check (mkState c b d 44100) = None ->
  (py_int (d * 44100) = 0%Z ->
   plot_signals D F c b 44100 d g = Raise (ValueError msg_fft_points)) /\
  ((0 < py_int (d * 44100))%Z ->
   exists fig,
     plot_signals D F c b 44100 d g = Ok fig /\
     Z.of_nat (length (fst (waveform fig))) = py_int (d * 44100) /\
     Z.of_nat (length (snd (waveform fig))) = py_int (d * 44100) /\
     Z.of_nat (length (fst (spectrum fig))) = (py_int (d * 44100) / 2)%Z /\
     Z.of_nat (length (snd (spectrum fig))) = (py_int (d * 44100) / 2)%Z).
Proof.
  intro Hc.
  destruct (synth_ok D (mkState c b d 44100) g Hc) as (noise & g2 & Hs & Hl).
  unfold synth in Hs. cbn [centre_freq bandwidth duration_sec sample_rate] in *.
  unfold plot_signals, default_sample_rate. rewrite Hs. cbn [bind].
  rewrite (py_int_mul_comm 44100 d).
  assert (Hn : (0 <= py_int (d * 44100))%Z) by lia.
  destruct (linspace_length 0 d _ Hn) as (time & -> & Ht). cbn [bind].
  split.
  - intro H0. rewrite H0 in Hl.
    destruct noise; [reflexivity | simpl in Hl; lia].
  - intro Hpos.
    assert (Hne : noise <> []) by (intros ->; simpl in Hl; lia).
    destruct (compute_fft_lengths F noise 44100 Hne eq_refl)
      as (freqs & mags & -> & Hf & Hm).
    cbn [bind]. rewrite (plot_same_length freqs mags) by congruence.
    cbn [bind]. rewrite (plot_same_length time noise) by lia.
    cbn [bind]. eexists. split; [reflexivity|]. cbn [waveform spectrum fst snd].
    rewrite Hf, Hm, Nat2Z.inj_div, Hl. repeat split; try assumption.
Qed.

(** X10: what the script does once the session has returned.  It prints
    the matched parameters after the session's own trace.  When the
    returned duration is 0 the noise it shapes is empty and the script
    ends with the transform's "Invalid number of FFT data points" before
    anything is plotted.  Otherwise both plots are drawn: the duration is
    a whole number of seconds [d >= 1], the waveform has [44100 d] time
    points for its [44100 d] samples, and the spectrum has half as many
    frequencies as moduli, so neither [plot] call is refused. *)
Theorem script_after_return
    (D : design) (F : numerics) (g : rng) (inputs : list string)
    (c b s d : Q) :
  snd (tinnitus_matching D g inputs) = Returned c b s d ->
  fst (script D F g inputs)
  = (fst (tinnitus_matching D g inputs) ++ [EvPrint (report F c b d)])%list /\
  (d == 0 ->
   snd (script D F g inputs) = Uncaught (ValueError msg_fft_points)) /\
  (~ d == 0 ->
   exists fig,
     snd (script D F g inputs) = Plotted fig /\
     (44100 <= py_int (d * 44100))%Z /\
     Z.of_nat (length (fst (waveform fig))) = py_int (d * 44100) /\
     Z.of_nat (length (snd (waveform fig))) = py_int (d * 44100) /\
     Z.of_nat (length (fst (spectrum fig))) = (py_int (d * 44100) / 2)%Z /\
     Z.of_nat (length (snd (spectrum fig))) = (py_int (d * 44100) / 2)%Z).
Proof.
  intro H.
  destruct (returned_state D g inputs c b s d H) as (Hc & Hst).
  assert (Hs : s = 44100).
  { rewrite tinnitus_matching_outcome in H.
    exact (outcome_sample_rate _ _ _ _ _ _ H). }
  subst s.
  destruct (state_after_closed_form (before_exit inputs) initial_state
              (before_exit_no_exit inputs)) as (_ & Hd & _).
  rewrite <- Hst in Hd. cbn [duration_sec initial_state] in Hd.
  set (k := (presses "5" (before_exit inputs)
             - presses "6" (before_exit inputs))%Z) in *.
  assert (Hsize : (0 <= py_int (d * 44100))%Z).
  { unfold synth_check in Hc.
    cbn [duration_sec sample_rate] in Hc.
    destruct (py_int (d * 44100) <? 0)%Z eqn:En; [discriminate|].
    now apply Z.ltb_ge in En. }
  destruct (plot_signals_spec D F c b d
              (rng_after D inputs initial_state g) Hc) as (P0 & P1).
  unfold script. destruct (tinnitus_matching D g inputs) as [tr o].
  cbn [snd fst] in H |- *. subst o. cbn [fst snd].
  split; [reflexivity|]. split.
  - intro Hz. rewrite P0; [reflexivity|].
    apply py_int_zero. rewrite Hz. apply Qmult_0_l.
  - intro Hnz.
    assert (Hk : (1 <= 3 + k)%Z).
    { destruct (Z.lt_ge_cases (3 + k) 1) as [L|L]; [exfalso | exact L].
      destruct (Z.eq_dec (3 + k) 0) as [E|E].
      - apply Hnz. rewrite Hd. change 3 with (inject_Z 3).
        rewrite <- inject_Z_plus, E. reflexivity.
      - assert (Hq : inject_Z (3 + k) <= inject_Z (-1))
          by (rewrite <- Zle_Qle; lia).
        rewrite inject_Z_plus in Hq.
        change (inject_Z 3) with 3 in Hq.
        change (inject_Z (-1)) with (-1) in Hq.
        assert (Hbad : d * 44100 <= -1) by (rewrite Hd; lra).
        apply py_int_negative in Hbad. lia. }
    assert (Hbig : (44100 <= py_int (d * 44100))%Z).
    { assert (Hq : inject_Z 1 <= inject_Z (3 + k))
        by (rewrite <- Zle_Qle; lia).
      rewrite inject_Z_plus in Hq.
      change (inject_Z 3) with 3 in Hq. change (inject_Z 1) with 1 in Hq.
      assert (Hge : inject_Z 44100 <= d * 44100)
        by (change (inject_Z 44100) with 44100; rewrite Hd; lra).
      rewrite (py_int_floor (d * 44100))
        by (change (inject_Z 44100) with 44100 in Hge; lra).
      apply Qfloor_resp_le in Hge. now rewrite Qfloor_Z in Hge. }
    destruct (P1 ltac:(lia)) as (fig & -> & L1 & L2 & L3 & L4).
    exists fig. repeat split; assumption.
Qed.

Lemma script_after_return_witness :
  snd (script identity_design
         {| bin := fun a k => (nth k a 0, 0);
            modulus := fun z => Qabs (fst z);
            text_of := fun _ => EmptyString |}
         square_rng ["6"; "6"; "6"; "0"]%string)
  = Uncaught (ValueError msg_fft_points).
Proof.
  refine (proj1 (proj2 (script_after_return identity_design _ square_rng
                   ["6"; "6"; "6"; "0"]%string 2000 320 44100 0 _)) _).
  - rewrite tinnitus_matching_outcome. reflexivity.
  - reflexivity.
Defined.

(** * What a session does not depend on *)

(** X11: the course of a session is decided by the console lines alone.
    Two runs over the same lines, with any two states of the random
    generator and any two sets of filter coefficients, end the same way
    and show the same trace up to the values of the samples played:
    the same synthesis calls, the same playback lengths, the same
    printed lines and the same reads, in the same order. *)
Theorem session_independent_of_samples
    (D D' : design) (g g' : rng) (inputs : list string) :
  snd (tinnitus_matching D g inputs) = snd (tinnitus_matching D' g' inputs) /\
  map shape_of (fst (tinnitus_matching D g inputs))
  = map shape_of (fst (tinnitus_matching D' g' inputs)).
Proof.
  now rewrite !tinnitus_matching_outcome, !tinnitus_matching_shapes.
Qed.
